(** * apm-server: the firehose ingestion handler and the model indexer

    A shallow embedding of
      - beater/api/firehose/handler.go   (package firehose)
      - the model indexer                (package modelindexer)
    and the properties of them that the specification states.

    Go values are modelled as follows.  A Go [string] is a Rocq [string]
    (a sequence of 8-bit characters).  An [int64] is a [Z] kept inside
    the signed 64-bit range; every arithmetic operation that can leave
    the range is followed by [wrap64].  A Go [error] is a value of
    [error], [nil] being [None] in an [option error].  A
    [context.Context] is reduced to what the code observes of it:
    whether it is done, and with which error. *)

From Stdlib Require Import ZArith List String Ascii Bool Lia NArith Permutation.
Import ListNotations.

Local Open Scope Z_scope.
Local Open Scope string_scope.

(** ** Errors and contexts *)

(** The error values that the two packages compare against or create,
    and [ErrOther] for every other error value. *)
Inductive error : Type :=
| ErrClosed                 (* modelindexer.ErrClosed *)
| ErrChannelClosed          (* publish.ErrChannelClosed *)
| ErrFull                   (* publish.ErrFull *)
| ContextCanceled           (* context.Canceled *)
| ContextDeadlineExceeded   (* context.DeadlineExceeded *)
| CorruptInputError         (* base64.CorruptInputError *)
| ErrOther (msg : string).

Definition error_eqb (a b : error) : bool :=
  match a, b with
  | ErrClosed, ErrClosed => true
  | ErrChannelClosed, ErrChannelClosed => true
  | ErrFull, ErrFull => true
  | ContextCanceled, ContextCanceled => true
  | ContextDeadlineExceeded, ContextDeadlineExceeded => true
  | CorruptInputError, CorruptInputError => true
  | ErrOther m, ErrOther n => String.eqb m n
  | _, _ => false
  end.

(** A context: [ctx_err = None] while the context is live, and
    [Some e] once it is done, [e] being what [ctx.Err()] returns. *)
Record Context : Type := { ctx_err : option error }.

Definition context_Background : Context := {| ctx_err := None |}.

Definition ctx_done (ctx : Context) : bool :=
  match ctx_err ctx with Some _ => true | None => false end.

(** ** 64-bit integers *)

Definition wrap64 (z : Z) : Z := (z + 2 ^ 63) mod 2 ^ 64 - 2 ^ 63.

Definition in_int64 (z : Z) : Prop := - 2 ^ 63 <= z < 2 ^ 63.

(** [atomic.AddInt64(&x, delta)]: the new value of [x]. *)
Definition atomic_AddInt64 (x delta : Z) : Z := wrap64 (x + delta).

(** ** The events of package model that the code reads and writes *)

Inductive Time : Type :=
| TimeZero
| TimeUnix (sec nsec : Z).   (* time.Unix(sec, nsec) *)

Definition time_Unix (sec nsec : Z) : Time := TimeUnix sec nsec.

Inductive Processor : Type :=
| NoProcessor
| TransactionProcessor
| SpanProcessor
| ErrorProcessor
| MetricsetProcessor
| LogProcessor.

Record DataStream : Type := {
  ds_Type : string;
  ds_Dataset : string;
  ds_Namespace : string
}.

Record CloudOrigin : Type := {
  co_AccountID : string;
  co_Region : string
}.

Record ServiceOrigin : Type := {
  so_ID : string;
  so_Name : string
}.

Record APMEvent : Type := {
  ev_Timestamp : Time;
  ev_Processor : Processor;
  ev_Message : string;
  ev_DataStream : DataStream;
  ev_CloudOrigin : option CloudOrigin;
  ev_ServiceOrigin : option ServiceOrigin
}.

Definition Batch : Type := list APMEvent.

(** The zero value of [model.APMEvent]. *)
Definition APMEvent_zero : APMEvent :=
  {| ev_Timestamp := TimeZero;
     ev_Processor := NoProcessor;
     ev_Message := "";
     ev_DataStream := {| ds_Type := ""; ds_Dataset := ""; ds_Namespace := "" |};
     ev_CloudOrigin := None;
     ev_ServiceOrigin := None |}.

Definition set_Timestamp (t : Time) (e : APMEvent) : APMEvent :=
  {| ev_Timestamp := t;
     ev_Processor := ev_Processor e;
     ev_Message := ev_Message e;
     ev_DataStream := ev_DataStream e;
     ev_CloudOrigin := ev_CloudOrigin e;
     ev_ServiceOrigin := ev_ServiceOrigin e |}.

Definition set_Processor (p : Processor) (e : APMEvent) : APMEvent :=
  {| ev_Timestamp := ev_Timestamp e;
     ev_Processor := p;
     ev_Message := ev_Message e;
     ev_DataStream := ev_DataStream e;
     ev_CloudOrigin := ev_CloudOrigin e;
     ev_ServiceOrigin := ev_ServiceOrigin e |}.

Definition set_Message (m : string) (e : APMEvent) : APMEvent :=
  {| ev_Timestamp := ev_Timestamp e;
     ev_Processor := ev_Processor e;
     ev_Message := m;
     ev_DataStream := ev_DataStream e;
     ev_CloudOrigin := ev_CloudOrigin e;
     ev_ServiceOrigin := ev_ServiceOrigin e |}.

(** ** Library functions of the Go distribution used by the handler *)

Definition newline : ascii := "010"%char.
Definition carriage_return : ascii := "013"%char.
Definition pad_char : ascii := "="%char.

(** [strings.Split(s, sep)] for a separator of one byte: the pieces of
    [s] between the occurrences of [sep]; never the empty list. *)
Fixpoint strings_Split (s : string) (sep : ascii) : list string :=
  match s with
  | EmptyString => [EmptyString]
  | String c rest =>
      if Ascii.eqb c sep then EmptyString :: strings_Split rest sep
      else match strings_Split rest sep with
           | cur :: others => String c cur :: others
           | [] => [String c EmptyString]
           end
  end.

(** The value of a character in the standard base64 alphabet. *)
Definition b64_value (c : ascii) : option N :=
  let n := N_of_ascii c in
  (if (65 <=? n) && (n <=? 90) then Some (n - 65)
   else if (97 <=? n) && (n <=? 122) then Some (n - 71)
   else if (48 <=? n) && (n <=? 57) then Some (n + 4)
   else if n =? 43 then Some 62
   else if n =? 47 then Some 63
   else None)%N.

Definition byte_of (n : N) : ascii := ascii_of_N (N.land n 255).

(** The 24 bits of one quantum of four characters. *)
Definition quantum (v0 v1 v2 v3 : N) : N :=
  N.lor (N.lor (N.shiftl v0 18) (N.shiftl v1 12)) (N.lor (N.shiftl v2 6) v3).

Definition quantum_bytes (k : nat) (q : N) : list ascii :=
  firstn k [byte_of (N.shiftr q 16); byte_of (N.shiftr q 8); byte_of q].

Fixpoint string_of_bytes (l : list ascii) : string :=
  match l with
  | [] => EmptyString
  | c :: l' => String c (string_of_bytes l')
  end.

Fixpoint bytes_of_string (s : string) : list ascii :=
  match s with
  | EmptyString => []
  | String c s' => c :: bytes_of_string s'
  end.

Definition is_line_break (c : ascii) : bool :=
  Ascii.eqb c newline || Ascii.eqb c carriage_return.

(** The quanta of a padded base64 text, line breaks already removed. *)
Fixpoint decode_quanta (src : list ascii) : option (list ascii) :=
  match src with
  | [] => Some []
  | a :: b :: c :: d :: rest =>
      match b64_value a, b64_value b with
      | Some va, Some vb =>
          if Ascii.eqb c pad_char then
            (* two padding characters end the input *)
            if Ascii.eqb d pad_char then
              match rest with
              | [] => Some (quantum_bytes 1 (quantum va vb 0 0))
              | _ :: _ => None
              end
            else None
          else
            match b64_value c with
            | Some vc =>
                if Ascii.eqb d pad_char then
                  match rest with
                  | [] => Some (quantum_bytes 2 (quantum va vb vc 0))
                  | _ :: _ => None
                  end
                else
                  match b64_value d, decode_quanta rest with
                  | Some vd, Some tl =>
                      Some (quantum_bytes 3 (quantum va vb vc vd) ++ tl)%list
                  | _, _ => None
                  end
            | None => None
            end
      | _, _ => None
      end
  | _ => None
  end.

(** [base64.StdEncoding.DecodeString]: the standard alphabet with
    padding; carriage returns and newlines of the input are skipped. *)
Definition base64_DecodeString (s : string) : error + string :=
  match decode_quanta (filter (fun c => negb (is_line_break c)) (bytes_of_string s)) with
  | Some bs => inr (string_of_bytes bs)
  | None => inl CorruptInputError
  end.

(** ** Package firehose *)

Module firehose.

Definition dataset : string := "firehose".

Record record : Type := { Data : string }.

Record firehoseLog : Type := {
  RequestID : string;
  Timestamp : Z;             (* int64, milliseconds *)
  Records : list record
}.

(** The inner loop of [processFirehoseLog]: the lines of one record.
    The loop is left at the first empty line. *)
Fixpoint lines_loop (ts : Z) (splitLines : list string)
    (event : APMEvent) (batch : Batch) : Batch :=
  match splitLines with
  | [] => batch
  | line :: rest =>
      if String.eqb line "" then batch            (* break *)
      else
        let event := set_Timestamp (time_Unix (Z.quot ts 1000) 0) event in
        let event := set_Processor LogProcessor event in
        let event := set_Message line event in
        lines_loop ts rest event (batch ++ [event])%list
  end.

(** The outer loop of [processFirehoseLog]: the records. *)
Fixpoint records_loop (ts : Z) (records : list record)
    (baseEvent : APMEvent) (batch : Batch) : error + Batch :=
  match records with
  | [] => inr batch
  | r :: rest =>
      let event := baseEvent in
      match base64_DecodeString (Data r) with
      | inl err => inl err
      | inr recordDec =>
          let splitLines := strings_Split recordDec newline in
          records_loop ts rest baseEvent (lines_loop ts splitLines event batch)
      end
  end.

Definition processFirehoseLog (firehose : firehoseLog) (baseEvent : APMEvent)
  : error + Batch :=
  records_loop (Timestamp firehose) (Records firehose) baseEvent [].

(** *** What the loops compute *)

(** The event appended for one line: a copy of the base event with the
    three fields set. *)
Definition log_event (ts : Z) (base : APMEvent) (line : string) : APMEvent :=
  set_Message line
    (set_Processor LogProcessor
       (set_Timestamp (time_Unix (Z.quot ts 1000) 0) base)).

(** The lines of a record that precede its first empty line. *)
Fixpoint lines_before_empty (lines : list string) : list string :=
  match lines with
  | [] => []
  | line :: rest =>
      if String.eqb line "" then [] else line :: lines_before_empty rest
  end.

(** The non-empty lines of a record. *)
Definition nonempty_lines (lines : list string) : list string :=
  filter (fun line => negb (String.eqb line "")) lines.

(** The decoded payloads of the records, or the first decoding error. *)
Fixpoint decode_records (records : list record) : error + list string :=
  match records with
  | [] => inr []
  | r :: rest =>
      match base64_DecodeString (Data r) with
      | inl err => inl err
      | inr dec =>
          match decode_records rest with
          | inl err => inl err
          | inr decs => inr (dec :: decs)
          end
      end
  end.

(** The batch read off the specification: one event for every
    non-empty line of every record. *)
Definition batch_of_nonempty_lines (firehose : firehoseLog) (base : APMEvent)
  : error + Batch :=
  match decode_records (Records firehose) with
  | inl err => inl err
  | inr decs =>
      inr (flat_map
             (fun dec =>
                map (log_event (Timestamp firehose) base)
                  (nonempty_lines (strings_Split dec newline)))
             decs)
  end.

(** The batch the code builds: one event for every line of every
    record that precedes the first empty line of that record. *)
Definition batch_of_leading_lines (firehose : firehoseLog) (base : APMEvent)
  : error + Batch :=
  match decode_records (Records firehose) with
  | inl err => inl err
  | inr decs =>
      inr (flat_map
             (fun dec =>
                map (log_event (Timestamp firehose) base)
                  (lines_before_empty (strings_Split dec newline)))
             decs)
  end.

Lemma log_event_overwrites (ts : Z) (e : APMEvent) (l1 l2 : string) :
  log_event ts (log_event ts e l1) l2 = log_event ts e l2.
Proof. destruct e; reflexivity. Qed.

Lemma lines_loop_spec (ts : Z) (lines : list string) :
  forall (event : APMEvent) (batch : Batch),
    lines_loop ts lines event batch =
    (batch ++ map (log_event ts event) (lines_before_empty lines))%list.
Proof.
  induction lines as [|line rest IH]; intros event batch; simpl.
  - now rewrite app_nil_r.
  - destruct (String.eqb line "") eqn:E.
    + now rewrite app_nil_r.
    + fold (log_event ts event line).
      rewrite IH, <- app_assoc. simpl.
      rewrite (map_ext _ _ (log_event_overwrites ts event line)).
      reflexivity.
Qed.

Lemma records_loop_spec (ts : Z) (base : APMEvent) (records : list record) :
  forall batch : Batch,
    records_loop ts records base batch =
    match decode_records records with
    | inl err => inl err
    | inr decs =>
        inr (batch ++
             flat_map
               (fun dec =>
                  map (log_event ts base)
                    (lines_before_empty (strings_Split dec newline)))
               decs)%list
    end.
Proof.
  induction records as [|r rest IH]; intro batch; simpl.
  - now rewrite app_nil_r.
  - destruct (base64_DecodeString (Data r)) as [err|dec]; [reflexivity|].
    rewrite IH, lines_loop_spec.
    destruct (decode_records rest) as [err|decs]; [reflexivity|].
    simpl. now rewrite app_assoc.
Qed.

(** When no empty line precedes a non-empty one, the lines before the
    first empty line are all the non-empty lines. *)
Fixpoint no_interior_empty (lines : list string) : bool :=
  match lines with
  | [] => true
  | line :: rest =>
      if String.eqb line "" then forallb (fun l => String.eqb l "") rest
      else no_interior_empty rest
  end.

Lemma nonempty_lines_all_empty (lines : list string) :
  forallb (fun l => String.eqb l "") lines = true -> nonempty_lines lines = [].
Proof.
  induction lines as [|l rest IH]; simpl; [reflexivity|].
  destruct (String.eqb l ""); simpl; [exact IH | discriminate].
Qed.

Lemma lines_before_empty_nonempty (lines : list string) :
  no_interior_empty lines = true ->
  lines_before_empty lines = nonempty_lines lines.
Proof.
  induction lines as [|l rest IH]; simpl; [reflexivity|].
  destruct (String.eqb l "") eqn:E; simpl; intro H.
  - symmetry. now apply nonempty_lines_all_empty.
  - f_equal. now apply IH.
Qed.

(** The envelope of the end-to-end scenario of the specification. *)
Definition envelope_req1 : firehoseLog :=
  {| RequestID := "req-1";
     Timestamp := 1600000000000;
     Records := [ {| Data := "bGluZTEKbGluZTI=" |} ] |}.

(** An envelope whose only record decodes to the three lines
    [a], the empty line, and [b]. *)
Definition envelope_gap : firehoseLog :=
  {| RequestID := "req-2";
     Timestamp := 1600000000000;
     Records := [ {| Data := "YQoKYg==" |} ] |}.

(** C1, as stated, fails: on a record that decodes to [a], an empty
    line and [b], the specification's batch holds the events of both
    [a] and [b], while the code appends the event of [a] only. *)
Lemma processFirehoseLog_stops_at_empty_line :
  base64_DecodeString "YQoKYg==" = inr (String "a" (String newline (String newline "b"))) /\
  processFirehoseLog envelope_gap APMEvent_zero =
    inr [log_event 1600000000000 APMEvent_zero "a"] /\
  batch_of_nonempty_lines envelope_gap APMEvent_zero =
    inr [log_event 1600000000000 APMEvent_zero "a";
         log_event 1600000000000 APMEvent_zero "b"] /\
  processFirehoseLog envelope_gap APMEvent_zero <>
    batch_of_nonempty_lines envelope_gap APMEvent_zero.
Proof.
  repeat split; try reflexivity.
  vm_compute. discriminate.
Qed.

(** C1, amended: for every envelope and base event,
    [processFirehoseLog] decodes each record in order, fails with the
    first decoding error, and otherwise returns, record by record, one
    copy of the base event with [Timestamp = time.Unix(timestamp/1000, 0)],
    [Processor = log] and [Message = line] for each line that precedes
    the first empty line of the record; these are all the non-empty
    lines of the records when no record has an empty line before a
    non-empty one; and the record [bGluZTEKbGluZTI=] yields exactly the
    two events with messages [line1] and [line2]. *)
Theorem processFirehoseLog_leading_lines :
  (forall (firehose : firehoseLog) (base : APMEvent),
      processFirehoseLog firehose base = batch_of_leading_lines firehose base) /\
  (forall (firehose : firehoseLog) (base : APMEvent) (decs : list string),
      decode_records (Records firehose) = inr decs ->
      forallb (fun dec => no_interior_empty (strings_Split dec newline)) decs = true ->
      processFirehoseLog firehose base = batch_of_nonempty_lines firehose base) /\
  (forall base : APMEvent,
      processFirehoseLog envelope_req1 base =
        inr [ set_Message "line1" (set_Processor LogProcessor
                (set_Timestamp (time_Unix 1600000000 0) base));
              set_Message "line2" (set_Processor LogProcessor
                (set_Timestamp (time_Unix 1600000000 0) base)) ]).
Proof.
  assert (A : forall firehose base,
             processFirehoseLog firehose base = batch_of_leading_lines firehose base).
  { intros firehose base. unfold processFirehoseLog, batch_of_leading_lines.
    rewrite records_loop_spec.
    destruct (decode_records (Records firehose)); reflexivity. }
  split; [exact A|]. split.
  - intros firehose base decs Hdec Hgap. rewrite A.
    unfold batch_of_leading_lines, batch_of_nonempty_lines. rewrite Hdec.
    f_equal. clear Hdec.
    induction decs as [|d ds IH]; simpl; [reflexivity|].
    simpl in Hgap. apply andb_prop in Hgap as [Hd Hds].
    rewrite (lines_before_empty_nonempty _ Hd), (IH Hds). reflexivity.
  - intro base. rewrite A. reflexivity.
Qed.

Lemma processFirehoseLog_leading_lines_witness :
  decode_records (Records envelope_req1) =
    inr [String "l" (String "i" (String "n" (String "e" (String "1"
          (String newline "line2")))))] /\
  processFirehoseLog envelope_req1 APMEvent_zero =
    batch_of_nonempty_lines envelope_req1 APMEvent_zero.
Proof.
  split; [reflexivity|].
  apply (proj1 (proj2 processFirehoseLog_leading_lines) envelope_req1 APMEvent_zero
           [String "l" (String "i" (String "n" (String "e" (String "1"
              (String newline "line2")))))]);
    reflexivity.
Defined.

(** *** The request handler *)

(** [strings.SplitN(s, sep, n)] for a separator of one byte and
    [n >= 0]: at most [n] pieces, the last one the unsplit rest. *)
Fixpoint cut (s : string) (sep : ascii) : option (string * string) :=
  match s with
  | EmptyString => None
  | String c rest =>
      if Ascii.eqb c sep then Some (EmptyString, rest)
      else match cut rest sep with
           | Some (before, after) => Some (String c before, after)
           | None => None
           end
  end.

Fixpoint strings_SplitN (s : string) (sep : ascii) (n : nat) : list string :=
  match n with
  | O => []
  | S O => [s]
  | S n' =>
      match cut s sep with
      | Some (before, after) => before :: strings_SplitN after sep n'
      | None => [s]
      end
  end.

Record arn : Type := {
  Partition : string;
  Service : string;
  Region : string;
  AccountID : string;
  Resource : string
}.

Definition arn_zero : arn :=
  {| Partition := ""; Service := ""; Region := ""; AccountID := ""; Resource := "" |}.

Definition parseARN (arnString : string) : arn :=
  let arnSections := 6%nat in
  let sections := strings_SplitN arnString ":"%char arnSections in
  match sections with
  | [_; s1; s2; s3; s4; s5] =>
      {| Partition := s1; Service := s2; Region := s3; AccountID := s4; Resource := s5 |}
  | _ => arn_zero
  end.

(** The identifiers of package request that the handler uses. *)
Inductive ResultID : Type :=
| IDUnset
| IDResponseValidAccepted
| IDResponseErrorsUnauthorized
| IDResponseErrorsMethodNotAllowed
| IDResponseErrorsShuttingDown
| IDResponseErrorsFullQueue
| IDResponseErrorsInternal.

Record result : Type := {
  res_ErrorMessage : string;
  res_RequestID : string;
  res_Timestamp : Z
}.

(** What [handle] returns as its [error]: a value of the package's own
    type [requestError], or an error of any other type. *)
Inductive handleError : Type :=
| requestError (id : ResultID) (err : error)
| plainError (err : error).

(** Modelled from the spec: [request.Result] and its setters are not
    under src/; only the fields that the handler sets are kept.
    [SetWithError] and [SetWithBody] record the identifier, the status
    code that the table of package request gives it, and the error or
    the body.  The body that package request gives an error result is
    not decided by the handler: it is the parameter [ErrorBody]. *)
Record Result : Type := {
  ID : ResultID;
  StatusCode : Z;
  Body : option result;
  Err : option handleError
}.

Definition Result_zero : Result :=
  {| ID := IDUnset; StatusCode := 0; Body := None; Err := None |}.

Section Handler.

(** The authenticator and the batch processor are interfaces; the
    JSON decoder and the status table are outside this package. *)
Variables AuthenticationDetails Authorizer : Type.
Variable Authenticate :
  Context -> string -> string -> error + (AuthenticationDetails * Authorizer).
Variable ProcessBatch : Context -> Batch -> option error.
Variable json_Decode : string -> error + firehoseLog.
Variable MapResultIDToStatus : ResultID -> Z.
Variable ErrorBody : ResultID -> handleError -> option result.

Definition SetWithError (id : ResultID) (err : handleError) (r : Result) : Result :=
  {| ID := id; StatusCode := MapResultIDToStatus id; Body := ErrorBody id err;
     Err := Some err |}.

Definition SetWithBody (id : ResultID) (body : result) (r : Result) : Result :=
  {| ID := id; StatusCode := MapResultIDToStatus id; Body := Some body; Err := None |}.

Definition set_StatusCode (code : Z) (r : Result) : Result :=
  {| ID := ID r; StatusCode := code; Body := Body r; Err := Err r |}.

(** [request.Context], reduced to what the handler reads and writes. *)
Record RequestContext : Type := {
  Header_Get : string -> string;          (* c.Request.Header.Get *)
  Method : string;                        (* c.Request.Method *)
  RequestBody : string;                   (* c.Request.Body *)
  Request_Context : Context;              (* c.Request.Context() *)
  Request_Authorizer : option Authorizer; (* the authorizer in that context *)
  Authentication : option AuthenticationDetails;
  c_Result : Result;
  ResponseHeader : list (string * string)
}.

Definition set_auth (details : AuthenticationDetails) (authorizer : Authorizer)
    (c : RequestContext) : RequestContext :=
  {| Header_Get := Header_Get c;
     Method := Method c;
     RequestBody := RequestBody c;
     Request_Context := Request_Context c;
     Request_Authorizer := Some authorizer;
     Authentication := Some details;
     c_Result := c_Result c;
     ResponseHeader := ResponseHeader c |}.

Definition set_Result (r : Result) (c : RequestContext) : RequestContext :=
  {| Header_Get := Header_Get c;
     Method := Method c;
     RequestBody := RequestBody c;
     Request_Context := Request_Context c;
     Request_Authorizer := Request_Authorizer c;
     Authentication := Authentication c;
     c_Result := r;
     ResponseHeader := ResponseHeader c |}.

(** [c.Header().Set(key, value)]. *)
Definition Header_Set (key value : string) (c : RequestContext) : RequestContext :=
  {| Header_Get := Header_Get c;
     Method := Method c;
     RequestBody := RequestBody c;
     Request_Context := Request_Context c;
     Request_Authorizer := Request_Authorizer c;
     Authentication := Authentication c;
     c_Result := c_Result c;
     ResponseHeader :=
       (key, value) ::
       filter (fun kv => negb (String.eqb (fst kv) key)) (ResponseHeader c) |}.

Definition headers_APIKey : string := "ApiKey".
Definition headers_ContentType : string := "Content-Type".
Definition http_MethodPost : string := "POST".
Definition datastreams_LogsType : string := "logs".

Definition requestMetadata (c : RequestContext) : APMEvent :=
  let arnString := Header_Get c "X-Amz-Firehose-Source-Arn" in
  let arnParsed := parseARN arnString in
  {| ev_Timestamp := TimeZero;
     ev_Processor := NoProcessor;
     ev_Message := "";
     ev_DataStream :=
       {| ds_Type := datastreams_LogsType; ds_Dataset := dataset; ds_Namespace := "" |};
     ev_CloudOrigin :=
       Some {| co_AccountID := AccountID arnParsed; co_Region := Region arnParsed |};
     ev_ServiceOrigin :=
       Some {| so_ID := arnString; so_Name := Resource arnParsed |} |}.

(** The closure [handle] of [Handler]. *)
Definition handle (c : RequestContext) : RequestContext * (handleError + result) :=
  let accessKey := Header_Get c "X-Amz-Firehose-Access-Key" in
  if String.eqb accessKey "" then
    (c, inl (requestError IDResponseErrorsUnauthorized
               (ErrOther "Access key is required for using /firehose endpoint")))
  else
    match Authenticate (Request_Context c) headers_APIKey accessKey with
    | inl _ =>
        (c, inl (requestError IDResponseErrorsUnauthorized
                   (ErrOther "authentication failed")))
    | inr (details, authorizer) =>
        let c := set_auth details authorizer c in
        if negb (String.eqb (Method c) http_MethodPost) then
          (c, inl (requestError IDResponseErrorsMethodNotAllowed
                     (ErrOther "only POST requests are supported")))
        else
          match json_Decode (RequestBody c) with
          | inl err => (c, inl (plainError err))
          | inr firehose =>
              let baseEvent := requestMetadata c in
              match processFirehoseLog firehose baseEvent with
              | inl err => (c, inl (plainError err))
              | inr batch =>
                  match ProcessBatch (Request_Context c) batch with
                  | Some ErrChannelClosed =>
                      (c, inl (requestError IDResponseErrorsShuttingDown
                                 (ErrOther "server is shutting down")))
                  | Some ErrFull =>
                      (c, inl (requestError IDResponseErrorsFullQueue ErrFull))
                  | Some err => (c, inl (plainError err))
                  | None =>
                      (c, inr {| res_ErrorMessage := "";
                                 res_RequestID := RequestID firehose;
                                 res_Timestamp := Timestamp firehose |})
                  end
              end
          end
    end.

(** The handler that [Handler] returns, up to the call of [c.Write]. *)
Definition Handler (c : RequestContext) : RequestContext :=
  let (c, r) := handle c in
  let c :=
    match r with
    | inl (requestError id err) =>
        set_Result (SetWithError id (requestError id err) (c_Result c)) c
    | inl (plainError err) =>
        set_Result (SetWithError IDResponseErrorsInternal (plainError err) (c_Result c)) c
    | inr res =>
        let c := set_Result (SetWithBody IDResponseValidAccepted res (c_Result c)) c in
        set_Result (set_StatusCode 200 (c_Result c)) c
    end in
  Header_Set headers_ContentType "application/json" c.

(** The request reaches the call of [ProcessBatch] with [batch]. *)
Definition reaches_ProcessBatch (c : RequestContext)
    (firehose : firehoseLog) (batch : Batch) : Prop :=
  Header_Get c "X-Amz-Firehose-Access-Key" <> "" /\
  (exists da, Authenticate (Request_Context c) headers_APIKey
                (Header_Get c "X-Amz-Firehose-Access-Key") = inr da) /\
  Method c = http_MethodPost /\
  json_Decode (RequestBody c) = inr firehose /\
  processFirehoseLog firehose (requestMetadata c) = inr batch.

(** C9: when a request reaches [ProcessBatch], the handler sets the
    result ShuttingDown if [ProcessBatch] returns [ErrChannelClosed],
    FullQueue if it returns [ErrFull] and Internal for every other
    error; when [ProcessBatch] succeeds the status code is 200 and
    the body holds the request id and the timestamp of the envelope;
    in every case the content type is [application/json]. *)
Theorem Handler_maps_ProcessBatch_result
    (c : RequestContext) (firehose : firehoseLog) (batch : Batch) :
  reaches_ProcessBatch c firehose batch ->
  let r := c_Result (Handler c) in
  match ProcessBatch (Request_Context c) batch with
  | Some ErrChannelClosed => ID r = IDResponseErrorsShuttingDown
  | Some ErrFull => ID r = IDResponseErrorsFullQueue
  | Some err =>
      ID r = IDResponseErrorsInternal /\ Err r = Some (plainError err)
  | None =>
      ID r = IDResponseValidAccepted /\
      StatusCode r = 200 /\
      Body r = Some {| res_ErrorMessage := "";
                       res_RequestID := RequestID firehose;
                       res_Timestamp := Timestamp firehose |}
  end /\
  ResponseHeader (Handler c) =
    (headers_ContentType, "application/json") ::
    filter (fun kv => negb (String.eqb (fst kv) headers_ContentType))
      (ResponseHeader c).
Proof.
  intros (Hkey & ((details & authorizer) & Hauth) & Hm & Hdec & Hlog).
  apply String.eqb_neq in Hkey.
  unfold Handler, handle.
  rewrite Hkey, Hauth. cbn [set_auth Method RequestBody Request_Context].
  rewrite Hm, String.eqb_refl. cbn [negb].
  rewrite Hdec.
  change (requestMetadata (set_auth details authorizer c)) with (requestMetadata c).
  rewrite Hlog.
  destruct (ProcessBatch (Request_Context c) batch) as [[]|]; cbn; repeat split.
Qed.

End Handler.

(** A request carrying the envelope of the end-to-end scenario, an
    authenticator that accepts every key, and a processor that accepts
    every batch. *)
Definition request_req1 : RequestContext unit unit :=
  {| Header_Get := fun k =>
       if String.eqb k "X-Amz-Firehose-Access-Key" then "secret" else "";
     Method := "POST";
     RequestBody := "req-1";
     Request_Context := context_Background;
     Request_Authorizer := None;
     Authentication := None;
     c_Result := Result_zero;
     ResponseHeader := [] |}.

Definition authenticate_any (_ : Context) (_ _ : string) : error + (unit * unit) :=
  inr (tt, tt).

Definition process_any (_ : Context) (_ : Batch) : option error := None.

Definition decode_req1 (_ : string) : error + firehoseLog := inr envelope_req1.

Definition status_accepted (_ : ResultID) : Z := 202.

Definition error_body (_ : ResultID) (err : handleError) : option result :=
  Some {| res_ErrorMessage :=
            match err with
            | requestError _ (ErrOther msg) | plainError (ErrOther msg) => msg
            | _ => "error"
            end;
          res_RequestID := "";
          res_Timestamp := 0 |}.

Definition batch_req1 : Batch :=
  [log_event 1600000000000 (requestMetadata unit unit request_req1) "line1";
   log_event 1600000000000 (requestMetadata unit unit request_req1) "line2"].

Lemma Handler_maps_ProcessBatch_result_witness :
  reaches_ProcessBatch unit unit authenticate_any decode_req1
    request_req1 envelope_req1 batch_req1 /\
  let r := c_Result unit unit
             (Handler unit unit authenticate_any process_any decode_req1
                status_accepted error_body request_req1) in
  ID r = IDResponseValidAccepted /\
  StatusCode r = 200 /\
  Body r = Some {| res_ErrorMessage := ""; res_RequestID := "req-1";
                   res_Timestamp := 1600000000000 |}.
Proof.
  assert (R : reaches_ProcessBatch unit unit authenticate_any decode_req1
                request_req1 envelope_req1 batch_req1).
  { repeat split; try reflexivity.
    - discriminate.
    - exists (tt, tt). reflexivity. }
  split; [exact R|].
  exact (proj1 (Handler_maps_ProcessBatch_result unit unit authenticate_any
                  process_any decode_req1 status_accepted error_body
                  request_req1 envelope_req1 batch_req1 R)).
Defined.

(** *** Further properties of the handler *)

(** Whether the byte [c] occurs in [s], and how often. *)
Fixpoint contains_byte (c : ascii) (s : string) : bool :=
  match s with
  | EmptyString => false
  | String x rest => Ascii.eqb x c || contains_byte c rest
  end.

Fixpoint count_byte (c : ascii) (s : string) : nat :=
  match s with
  | EmptyString => O
  | String x rest => if Ascii.eqb x c then S (count_byte c rest) else count_byte c rest
  end.

Lemma strings_Split_no_sep (sep : ascii) (s : string) :
  Forall (fun piece => contains_byte sep piece = false) (strings_Split s sep).
Proof.
  induction s as [|c rest IH]; cbn [strings_Split].
  - repeat constructor.
  - destruct (Ascii.eqb c sep) eqn:E.
    + constructor; [reflexivity | exact IH].
    + destruct (strings_Split rest sep) as [|cur others].
      * repeat constructor. cbn. now rewrite E.
      * inversion IH; subst. constructor; [|assumption].
        cbn. now rewrite E.
Qed.

Lemma lines_before_empty_Forall (P : string -> Prop) (lines : list string) :
  Forall P lines ->
  Forall (fun line => P line /\ line <> "") (lines_before_empty lines).
Proof.
  induction 1 as [|line rest Hl Hrest IH]; cbn [lines_before_empty]; [constructor|].
  destruct (String.eqb line "") eqn:E; [constructor|].
  constructor; [|exact IH]. split; [exact Hl|]. now apply String.eqb_neq.
Qed.

(** What every event of a batch of [processFirehoseLog] looks like. *)
Definition log_event_of (ts : Z) (base e : APMEvent) : Prop :=
  ev_Timestamp e = TimeUnix (Z.quot ts 1000) 0 /\
  ev_Processor e = LogProcessor /\
  ev_Message e <> "" /\
  contains_byte newline (ev_Message e) = false /\
  ev_DataStream e = ev_DataStream base /\
  ev_CloudOrigin e = ev_CloudOrigin base /\
  ev_ServiceOrigin e = ev_ServiceOrigin base.

Lemma leading_lines_events (ts : Z) (base : APMEvent) (decs : list string) :
  Forall (log_event_of ts base)
    (flat_map
       (fun dec =>
          map (log_event ts base) (lines_before_empty (strings_Split dec newline)))
       decs).
Proof.
  induction decs as [|dec decs IH]; cbn [flat_map]; [constructor|].
  apply Forall_app. split; [|exact IH].
  apply Forall_map.
  pose proof (lines_before_empty_Forall _ _ (strings_Split_no_sep newline dec)) as Hl.
  revert Hl. apply Forall_impl. intros line [Hnl Hne].
  unfold log_event_of. cbn. repeat split; assumption.
Qed.

Lemma processFirehoseLog_inr_inv (firehose : firehoseLog) (base : APMEvent) (batch : Batch) :
  processFirehoseLog firehose base = inr batch ->
  exists decs,
    decode_records (Records firehose) = inr decs /\
    batch =
      flat_map
        (fun dec =>
           map (log_event (Timestamp firehose) base)
             (lines_before_empty (strings_Split dec newline)))
        decs.
Proof.
  unfold processFirehoseLog. rewrite records_loop_spec.
  destruct (decode_records (Records firehose)) as [err|decs]; [discriminate|].
  intro H. inversion H. exists decs. split; reflexivity.
Qed.

(** X1: every event that [processFirehoseLog] returns has the
    timestamp [time.Unix(timestamp/1000, 0)], the processor [log], a
    message that is not empty and holds no newline, and the data
    stream and the origins of the base event. *)
Theorem processFirehoseLog_events_are_log_lines
    (firehose : firehoseLog) (base : APMEvent) (batch : Batch) :
  processFirehoseLog firehose base = inr batch ->
  Forall (log_event_of (Timestamp firehose) base) batch.
Proof.
  intro H.
  destruct (processFirehoseLog_inr_inv _ _ _ H) as (decs & _ & Hbatch).
  subst batch. apply leading_lines_events.
Qed.

Lemma processFirehoseLog_events_are_log_lines_witness :
  Forall (log_event_of 1600000000000 APMEvent_zero)
    [log_event 1600000000000 APMEvent_zero "line1";
     log_event 1600000000000 APMEvent_zero "line2"].
Proof.
  apply (processFirehoseLog_events_are_log_lines envelope_req1 APMEvent_zero).
  reflexivity.
Defined.

Lemma decode_records_fails_iff (records : list record) :
  (exists err, decode_records records = inl err) <->
  Exists (fun r => exists err, base64_DecodeString (Data r) = inl err) records.
Proof.
  induction records as [|r rest IH]; cbn [decode_records].
  - split; [intros [err H]; discriminate | intro H; inversion H].
  - destruct (base64_DecodeString (Data r)) as [e|dec] eqn:E.
    + split; [|eauto]. intros _. left. eauto.
    + split.
      * intros [err H]. right. apply IH.
        destruct (decode_records rest) as [e|decs]; [eauto | discriminate].
      * intro H. inversion H as [? ? [err Herr]|? ? Hrest]; subst; [congruence|].
        apply IH in Hrest as [err Herr]. rewrite Herr. eauto.
Qed.

(** X2: [processFirehoseLog] returns an error exactly when some record
    of the envelope is not valid base64; the events of the records
    decoded before it are then dropped with it. *)
Theorem processFirehoseLog_fails_iff_some_record_corrupt
    (firehose : firehoseLog) (base : APMEvent) :
  (exists err, processFirehoseLog firehose base = inl err) <->
  Exists (fun r => exists err, base64_DecodeString (Data r) = inl err)
    (Records firehose).
Proof.
  rewrite <- decode_records_fails_iff.
  unfold processFirehoseLog. rewrite records_loop_spec.
  destruct (decode_records (Records firehose)) as [err|decs].
  - split; intros _; eauto.
  - split; intros [err H]; discriminate.
Qed.

Definition with_Records (firehose : firehoseLog) (records : list record) : firehoseLog :=
  {| RequestID := RequestID firehose;
     Timestamp := Timestamp firehose;
     Records := records |}.

Lemma decode_records_app (r1 r2 : list record) :
  decode_records (r1 ++ r2) =
  match decode_records r1 with
  | inl err => inl err
  | inr d1 =>
      match decode_records r2 with
      | inl err => inl err
      | inr d2 => inr (d1 ++ d2)%list
      end
  end.
Proof.
  induction r1 as [|r r1 IH]; cbn [decode_records app].
  - destruct (decode_records r2); reflexivity.
  - destruct (base64_DecodeString (Data r)); [reflexivity|].
    rewrite IH.
    destruct (decode_records r1); [reflexivity|].
    destruct (decode_records r2); reflexivity.
Qed.

(** X3: the batch of an envelope whose records are [r1] followed by
    [r2] is the batch of [r1] followed by the batch of [r2]; it is
    the error of [r1] if [r1] fails, and otherwise the error of [r2]
    if [r2] fails. *)
Theorem processFirehoseLog_app
    (firehose : firehoseLog) (base : APMEvent) (r1 r2 : list record) :
  processFirehoseLog (with_Records firehose (r1 ++ r2)) base =
  match processFirehoseLog (with_Records firehose r1) base with
  | inl err => inl err
  | inr b1 =>
      match processFirehoseLog (with_Records firehose r2) base with
      | inl err => inl err
      | inr b2 => inr (b1 ++ b2)%list
      end
  end.
Proof.
  unfold processFirehoseLog. rewrite !records_loop_spec.
  cbn [Records Timestamp with_Records]. rewrite decode_records_app.
  destruct (decode_records r1) as [e1|d1]; [reflexivity|].
  destruct (decode_records r2) as [e2|d2]; [reflexivity|].
  cbn [app]. now rewrite flat_map_app.
Qed.

(** The pieces that [cut] and [strings_SplitN] return. *)
Lemma cut_app (sep : ascii) (a rest : string) :
  contains_byte sep a = false ->
  cut (a ++ String sep rest) sep = Some (a, rest).
Proof.
  induction a as [|x a IH]; cbn [append cut contains_byte].
  - intros _. now rewrite Ascii.eqb_refl.
  - intro H. apply orb_false_elim in H as [Hx Ha].
    now rewrite Hx, (IH Ha).
Qed.

Lemma cut_count (sep : ascii) (s : string) :
  match cut s sep with
  | Some (before, after) => count_byte sep s = S (count_byte sep after)
  | None => count_byte sep s = O
  end.
Proof.
  induction s as [|x s IH]; cbn [cut count_byte]; [reflexivity|].
  destruct (Ascii.eqb x sep); [reflexivity|].
  destruct (cut s sep) as [[before after]|]; exact IH.
Qed.

Lemma strings_SplitN_length (sep : ascii) (n : nat) :
  forall s : string,
    List.length (strings_SplitN s sep (S n)) = Nat.min (S n) (S (count_byte sep s)).
Proof.
  induction n as [|n IH]; intro s; [reflexivity|].
  change (strings_SplitN s sep (S (S n)))
    with (match cut s sep with
          | Some (before, after) => before :: strings_SplitN after sep (S n)
          | None => [s]
          end).
  pose proof (cut_count sep s) as Hc.
  destruct (cut s sep) as [[before after]|].
  - cbn [List.length]. rewrite IH, Hc. reflexivity.
  - rewrite Hc. reflexivity.
Qed.

Lemma strings_SplitN_six (a p sv r acc res : string) :
  contains_byte ":" a = false ->
  contains_byte ":" p = false ->
  contains_byte ":" sv = false ->
  contains_byte ":" r = false ->
  contains_byte ":" acc = false ->
  strings_SplitN
    (a ++ ":" ++ p ++ ":" ++ sv ++ ":" ++ r ++ ":" ++ acc ++ ":" ++ res) ":" 6 =
  [a; p; sv; r; acc; res].
Proof.
  intros Ha Hp Hsv Hr Hacc.
  cbn [append strings_SplitN].
  rewrite (cut_app _ _ _ Ha), (cut_app _ _ _ Hp), (cut_app _ _ _ Hsv),
    (cut_app _ _ _ Hr), (cut_app _ _ _ Hacc).
  reflexivity.
Qed.

(** X4: [parseARN] of a name with five colon-free parts followed by a
    resource returns the second to the fifth part and the resource;
    the resource is everything after the fifth colon, colons
    included. *)
Theorem parseARN_well_formed (a p sv r acc res : string) :
  contains_byte ":" a = false ->
  contains_byte ":" p = false ->
  contains_byte ":" sv = false ->
  contains_byte ":" r = false ->
  contains_byte ":" acc = false ->
  parseARN (a ++ ":" ++ p ++ ":" ++ sv ++ ":" ++ r ++ ":" ++ acc ++ ":" ++ res) =
  {| Partition := p; Service := sv; Region := r; AccountID := acc; Resource := res |}.
Proof.
  intros Ha Hp Hsv Hr Hacc. unfold parseARN.
  rewrite (strings_SplitN_six _ _ _ _ _ res Ha Hp Hsv Hr Hacc).
  reflexivity.
Qed.

Lemma parseARN_well_formed_witness :
  parseARN "arn:aws:firehose:us-east-1:123456789:deliverystream/vpc:flow" =
  {| Partition := "aws"; Service := "firehose"; Region := "us-east-1";
     AccountID := "123456789"; Resource := "deliverystream/vpc:flow" |}.
Proof.
  apply (parseARN_well_formed "arn" "aws" "firehose" "us-east-1" "123456789"
           "deliverystream/vpc:flow"); reflexivity.
Defined.

(** X5: [parseARN] of a string with fewer than five colons, the empty
    string included, returns the zero value. *)
Theorem parseARN_too_few_sections (arnString : string) :
  (count_byte ":" arnString < 5)%nat ->
  parseARN arnString = arn_zero.
Proof.
  intro H. unfold parseARN.
  pose proof (strings_SplitN_length ":" 5 arnString) as Hlen.
  destruct (strings_SplitN arnString ":" 6) as [|s0 [|s1 [|s2 [|s3 [|s4 [|s5 [|s6 l]]]]]]];
    try reflexivity; cbn [List.length] in Hlen; lia.
Qed.

Lemma parseARN_too_few_sections_witness :
  parseARN "arn:aws:firehose:us-east-1" = arn_zero /\ parseARN "" = arn_zero.
Proof.
  split; apply parseARN_too_few_sections; cbn; lia.
Defined.

Section HandlerProperties.

Variables AuthenticationDetails Authorizer : Type.
Variable Authenticate :
  Context -> string -> string -> error + (AuthenticationDetails * Authorizer).
Variable ProcessBatch : Context -> Batch -> option error.
Variable json_Decode : string -> error + firehoseLog.
Variable MapResultIDToStatus : ResultID -> Z.
Variable ErrorBody : ResultID -> handleError -> option result.

Local Abbreviation Handler' :=
  (Handler AuthenticationDetails Authorizer Authenticate ProcessBatch
     json_Decode MapResultIDToStatus ErrorBody).

(** X6: a request without the access key, or whose key the
    authenticator rejects, gets the result Unauthorized and an error
    of the handler's own type with that identifier, whatever its
    method and body are and whatever the processor would answer. *)
Theorem Handler_unauthorized (c : RequestContext AuthenticationDetails Authorizer) :
  Header_Get _ _ c "X-Amz-Firehose-Access-Key" = "" \/
  (exists err, Authenticate (Request_Context _ _ c) headers_APIKey
                 (Header_Get _ _ c "X-Amz-Firehose-Access-Key") = inl err) ->
  ID (c_Result _ _ (Handler' c)) = IDResponseErrorsUnauthorized /\
  (exists msg,
      Err (c_Result _ _ (Handler' c)) =
        Some (requestError IDResponseErrorsUnauthorized (ErrOther msg))) /\
  Authentication _ _ (Handler' c) = Authentication _ _ c.
Proof.
  intros [Hkey|[err Hauth]]; unfold Handler, handle.
  - rewrite Hkey. cbn. split; [reflexivity|]. split; [|reflexivity].
    eexists. reflexivity.
  - destruct (String.eqb _ "");
      [cbn; split; [reflexivity|]; split; [|reflexivity]; eexists; reflexivity|].
    rewrite Hauth. cbn. split; [reflexivity|]. split; [|reflexivity].
    eexists. reflexivity.
Qed.

(** X7: a request with an accepted key whose method is not POST gets
    the result MethodNotAllowed with the error of that identifier,
    after the authentication details have been stored in the request
    context, whatever its body is and whatever the processor would
    answer. *)
Theorem Handler_method_not_allowed (c : RequestContext AuthenticationDetails Authorizer)
    (da : AuthenticationDetails * Authorizer) :
  Header_Get _ _ c "X-Amz-Firehose-Access-Key" <> "" ->
  Authenticate (Request_Context _ _ c) headers_APIKey
    (Header_Get _ _ c "X-Amz-Firehose-Access-Key") = inr da ->
  Method _ _ c <> http_MethodPost ->
  ID (c_Result _ _ (Handler' c)) = IDResponseErrorsMethodNotAllowed /\
  Err (c_Result _ _ (Handler' c)) =
    Some (requestError IDResponseErrorsMethodNotAllowed
            (ErrOther "only POST requests are supported")) /\
  Authentication _ _ (Handler' c) = Some (fst da) /\
  Request_Authorizer _ _ (Handler' c) = Some (snd da).
Proof.
  intros Hkey Hauth Hm.
  apply String.eqb_neq in Hkey. apply String.eqb_neq in Hm.
  unfold Handler, handle. rewrite Hkey, Hauth. destruct da as [details authorizer].
  cbn [set_auth Method]. rewrite Hm. cbn.
  split; [reflexivity|]. split; [reflexivity|]. split; reflexivity.
Qed.

(** X8: when the body of an authenticated POST request cannot be
    decoded, or one of its records is not valid base64, the handler
    sets the result Internal with that error, passed on as it is and
    not as an error of the handler's own type, whatever the processor
    would answer. *)
Theorem Handler_undecodable_is_internal
    (c : RequestContext AuthenticationDetails Authorizer)
    (da : AuthenticationDetails * Authorizer) (err : error) :
  Header_Get _ _ c "X-Amz-Firehose-Access-Key" <> "" ->
  Authenticate (Request_Context _ _ c) headers_APIKey
    (Header_Get _ _ c "X-Amz-Firehose-Access-Key") = inr da ->
  Method _ _ c = http_MethodPost ->
  json_Decode (RequestBody _ _ c) = inl err \/
  (exists firehose,
      json_Decode (RequestBody _ _ c) = inr firehose /\
      processFirehoseLog firehose (requestMetadata _ _ c) = inl err) ->
  ID (c_Result _ _ (Handler' c)) = IDResponseErrorsInternal /\
  Err (c_Result _ _ (Handler' c)) = Some (plainError err).
Proof.
  intros Hkey Hauth Hm Hbad.
  apply String.eqb_neq in Hkey.
  unfold Handler, handle. rewrite Hkey, Hauth. destruct da as [details authorizer].
  cbn [set_auth Method RequestBody]. rewrite Hm, String.eqb_refl. cbn [negb].
  destruct Hbad as [Hdec|(firehose & Hdec & Hlog)]; rewrite Hdec.
  - split; reflexivity.
  - change (requestMetadata _ _ (set_auth _ _ details authorizer c))
      with (requestMetadata _ _ c).
    rewrite Hlog. split; reflexivity.
Qed.

(** X9: the events that the handler submits to the processor for a
    request whose source header is a name of six sections all carry
    the data stream type [logs] and dataset [firehose], the account
    and the region of the name as cloud origin, and the name and its
    resource as service origin. *)
Theorem Handler_submits_events_of_the_source
    (c : RequestContext AuthenticationDetails Authorizer)
    (firehose : firehoseLog) (batch : Batch) (a p sv r acc res : string) :
  reaches_ProcessBatch _ _ Authenticate json_Decode c firehose batch ->
  contains_byte ":" a = false ->
  contains_byte ":" p = false ->
  contains_byte ":" sv = false ->
  contains_byte ":" r = false ->
  contains_byte ":" acc = false ->
  Header_Get _ _ c "X-Amz-Firehose-Source-Arn" =
    a ++ ":" ++ p ++ ":" ++ sv ++ ":" ++ r ++ ":" ++ acc ++ ":" ++ res ->
  Forall
    (fun e =>
       ds_Type (ev_DataStream e) = "logs" /\
       ds_Dataset (ev_DataStream e) = "firehose" /\
       ev_CloudOrigin e = Some {| co_AccountID := acc; co_Region := r |} /\
       ev_ServiceOrigin e =
         Some {| so_ID := Header_Get _ _ c "X-Amz-Firehose-Source-Arn";
                 so_Name := res |})
    batch.
Proof.
  intros (_ & _ & _ & _ & Hlog) Ha Hp Hsv Hr Hacc Harn.
  destruct (processFirehoseLog_inr_inv _ _ _ Hlog) as (decs & _ & Hbatch).
  subst batch.
  pose proof (leading_lines_events (Timestamp firehose) (requestMetadata _ _ c) decs)
    as Hall.
  revert Hall. apply Forall_impl.
  intros e (_ & _ & _ & _ & Hds & Hco & Hso).
  rewrite Hds, Hco, Hso. unfold requestMetadata, parseARN.
  cbn [ev_DataStream ev_CloudOrigin ev_ServiceOrigin ds_Type ds_Dataset].
  rewrite Harn.
  rewrite (strings_SplitN_six _ _ _ _ _ res Ha Hp Hsv Hr Hacc).
  cbn [AccountID Region Resource]. repeat split.
Qed.

End HandlerProperties.

(** Requests for the examples: one without the access key, one with
    the method GET, and one that names its source. *)
Definition request_no_key : RequestContext unit unit :=
  {| Header_Get := fun _ => "";
     Method := "POST";
     RequestBody := "req-1";
     Request_Context := context_Background;
     Request_Authorizer := None;
     Authentication := None;
     c_Result := Result_zero;
     ResponseHeader := [] |}.

Definition request_get : RequestContext unit unit :=
  {| Header_Get := Header_Get unit unit request_req1;
     Method := "GET";
     RequestBody := "req-1";
     Request_Context := context_Background;
     Request_Authorizer := None;
     Authentication := None;
     c_Result := Result_zero;
     ResponseHeader := [] |}.

Definition source_arn : string :=
  "arn:aws:firehose:us-east-1:123456789:deliverystream/vpc-flow-log-stream".

Definition request_with_source : RequestContext unit unit :=
  {| Header_Get := fun k =>
       if String.eqb k "X-Amz-Firehose-Access-Key" then "secret"
       else if String.eqb k "X-Amz-Firehose-Source-Arn" then source_arn
       else "";
     Method := "POST";
     RequestBody := "req-1";
     Request_Context := context_Background;
     Request_Authorizer := None;
     Authentication := None;
     c_Result := Result_zero;
     ResponseHeader := [] |}.

Definition decode_fails (_ : string) : error + firehoseLog := inl (ErrOther "EOF").

Lemma Handler_unauthorized_witness :
  ID (c_Result unit unit
        (Handler unit unit authenticate_any process_any decode_req1 status_accepted
           error_body request_no_key)) = IDResponseErrorsUnauthorized.
Proof.
  apply (Handler_unauthorized unit unit authenticate_any process_any decode_req1
           status_accepted error_body request_no_key).
  left. reflexivity.
Defined.

Lemma Handler_method_not_allowed_witness :
  ID (c_Result unit unit
        (Handler unit unit authenticate_any process_any decode_req1 status_accepted
           error_body request_get)) = IDResponseErrorsMethodNotAllowed.
Proof.
  apply (Handler_method_not_allowed unit unit authenticate_any process_any
           decode_req1 status_accepted error_body request_get (tt, tt)).
  - discriminate.
  - reflexivity.
  - discriminate.
Defined.

Lemma Handler_undecodable_is_internal_witness :
  ID (c_Result unit unit
        (Handler unit unit authenticate_any process_any decode_fails status_accepted
           error_body request_req1)) = IDResponseErrorsInternal /\
  Err (c_Result unit unit
         (Handler unit unit authenticate_any process_any decode_fails status_accepted
            error_body request_req1)) = Some (plainError (ErrOther "EOF")).
Proof.
  apply (Handler_undecodable_is_internal unit unit authenticate_any process_any
           decode_fails status_accepted error_body request_req1 (tt, tt)
           (ErrOther "EOF")).
  - discriminate.
  - reflexivity.
  - reflexivity.
  - left. reflexivity.
Defined.

Definition batch_with_source : Batch :=
  [log_event 1600000000000 (requestMetadata unit unit request_with_source) "line1";
   log_event 1600000000000 (requestMetadata unit unit request_with_source) "line2"].

Lemma Handler_submits_events_of_the_source_witness :
  Forall
    (fun e =>
       ds_Type (ev_DataStream e) = "logs" /\
       ds_Dataset (ev_DataStream e) = "firehose" /\
       ev_CloudOrigin e =
         Some {| co_AccountID := "123456789"; co_Region := "us-east-1" |} /\
       ev_ServiceOrigin e =
         Some {| so_ID := source_arn;
                 so_Name := "deliverystream/vpc-flow-log-stream" |})
    batch_with_source.
Proof.
  apply (Handler_submits_events_of_the_source unit unit authenticate_any decode_req1
           request_with_source envelope_req1 batch_with_source
           "arn" "aws" "firehose" "us-east-1" "123456789"
           "deliverystream/vpc-flow-log-stream"); try reflexivity.
  repeat split; try reflexivity.
  - discriminate.
  - exists (tt, tt). reflexivity.
Defined.

End firehose.

(** ** Package modelindexer *)

Module modelindexer.

Local Open Scope Z_scope.

(** *** 64-bit arithmetic *)

Lemma wrap64_range (z : Z) : in_int64 (wrap64 z).
Proof.
  unfold in_int64, wrap64.
  pose proof (Z.mod_pos_bound (z + 2 ^ 63) (2 ^ 64) ltac:(lia)). lia.
Qed.

Lemma wrap64_id (z : Z) : in_int64 z -> wrap64 z = z.
Proof.
  unfold in_int64, wrap64. intro H.
  rewrite Z.mod_small by lia. lia.
Qed.

Lemma wrap64_add_l (a b : Z) : wrap64 (wrap64 a + b) = wrap64 (a + b).
Proof.
  unfold wrap64.
  replace ((a + 2 ^ 63) mod 2 ^ 64 - 2 ^ 63 + b + 2 ^ 63)
    with ((a + 2 ^ 63) mod 2 ^ 64 + b) by lia.
  rewrite Zplus_mod_idemp_l.
  replace (a + 2 ^ 63 + b) with (a + b + 2 ^ 63) by lia.
  reflexivity.
Qed.

Lemma wrap64_add_r (a b : Z) : wrap64 (a + wrap64 b) = wrap64 (a + b).
Proof. rewrite (Z.add_comm a), wrap64_add_l. f_equal. lia. Qed.

Lemma wrap64_idem (a : Z) : wrap64 (wrap64 a) = wrap64 a.
Proof. apply wrap64_id, wrap64_range. Qed.

(** *** The counters *)

Record Stats : Type := {
  Active : Z;
  Added : Z;
  Failed : Z
}.

(** The three counters of [Indexer]. *)
Record Counters : Type := {
  eventsAdded : Z;
  eventsActive : Z;
  eventsFailed : Z
}.

Definition counters_zero : Counters :=
  {| eventsAdded := 0; eventsActive := 0; eventsFailed := 0 |}.

Definition add_eventsAdded (delta : Z) (c : Counters) : Counters :=
  {| eventsAdded := atomic_AddInt64 (eventsAdded c) delta;
     eventsActive := eventsActive c;
     eventsFailed := eventsFailed c |}.

Definition add_eventsActive (delta : Z) (c : Counters) : Counters :=
  {| eventsAdded := eventsAdded c;
     eventsActive := atomic_AddInt64 (eventsActive c) delta;
     eventsFailed := eventsFailed c |}.

Definition add_eventsFailed (delta : Z) (c : Counters) : Counters :=
  {| eventsAdded := eventsAdded c;
     eventsActive := eventsActive c;
     eventsFailed := atomic_AddInt64 (eventsFailed c) delta |}.

(** *** Pooled readers and bulk buffers *)

Record pooledReader : Type := {
  buf : string;            (* the bytes not yet read *)
  indexBuilder : string    (* what the name builder holds *)
}.

Definition pooledReader_new : pooledReader := {| buf := ""; indexBuilder := "" |}.

(** [getPooledReader], given what [pool.Get()] returned. *)
Definition getPooledReader (got : option pooledReader) : pooledReader :=
  match got with
  | Some r => r
  | None => pooledReader_new
  end.

(** The method [Read] of [pooledReader], asked for [n] bytes: the bytes read, whether
    the end of the stream is reported, the reader afterwards, and the
    reader put back into the pool, if any.  The buffer reports the end
    of the stream when it is empty and bytes were asked for. *)
Definition pooledReader_Read (n : nat) (r : pooledReader)
  : string * bool * pooledReader * option pooledReader :=
  let got := substring 0 n (buf r) in
  let rest := substring n (String.length (buf r) - n) (buf r) in
  let eof := (String.length (buf r) =? 0)%nat && negb (n =? 0)%nat in
  if eof then
    let r' := {| buf := ""; indexBuilder := "" |} in
    (got, true, r', Some r')
  else
    (got, false, {| buf := rest; indexBuilder := indexBuilder r |}, None).

Record BulkIndexerItem : Type := {
  Index : string;
  Action : string;
  Body : pooledReader
}.

Record ErrorInfo : Type := {
  err_Type : string;
  err_Reason : string
}.

Record BulkIndexerResponseItem : Type := {
  Status : Z;
  Error : ErrorInfo
}.

(** [resp.Items]: a slice of maps from the action to the outcome. *)
Record BulkIndexerResponse : Type := {
  Items : list (list (string * BulkIndexerResponseItem))
}.

(** Modelled from the spec: the bulk buffer [bulkIndexer] is not under
    src/.  It owns the items added since the last reset, [len] bytes
    and [items] items; [Add] appends the metadata line and the body
    line of one item, charges the sum of their lengths to [len] and
    increments [items]; [Reset] clears the three. *)
Record bulkIndexer : Type := {
  bi_items : list BulkIndexerItem;
  bi_len : Z;
  bi_count : Z
}.

Definition newBulkIndexer : bulkIndexer :=
  {| bi_items := []; bi_len := 0; bi_count := 0 |}.

Definition bulkIndexer_Len (b : bulkIndexer) : Z := bi_len b.
Definition bulkIndexer_Items (b : bulkIndexer) : Z := bi_count b.
Definition bulkIndexer_Reset (b : bulkIndexer) : bulkIndexer := newBulkIndexer.

(** *** Timers, channels and the worker group *)

(** A [*time.Timer] made by [time.AfterFunc]: waiting to fire after a
    duration, fired, or stopped. *)
Inductive Timer : Type :=
| TimerArmed (d : Z)
| TimerFired
| TimerStopped.

(** [t.Stop()]: whether the call stopped the timer, and the timer. *)
Definition Timer_Stop (t : Timer) : bool * Timer :=
  match t with
  | TimerArmed _ => (true, TimerStopped)
  | TimerFired => (false, TimerFired)
  | TimerStopped => (false, TimerStopped)
  end.

Definition Timer_Reset (d : Z) (t : Timer) : Timer := TimerArmed d.

(** A buffered channel of bulk buffers. *)
Record chan : Type := {
  chan_cap : Z;
  chan_queue : list bulkIndexer
}.

Definition make_chan (capacity : Z) : chan :=
  {| chan_cap := capacity; chan_queue := [] |}.

(** A send: [None] when the channel is full and the sender blocks. *)
Definition chan_send (b : bulkIndexer) (ch : chan) : option chan :=
  if Z.of_nat (List.length (chan_queue ch)) <? chan_cap ch then
    Some {| chan_cap := chan_cap ch; chan_queue := (chan_queue ch ++ [b])%list |}
  else None.

(** A receive: [None] when the channel is empty and the receiver blocks. *)
Definition chan_recv (ch : chan) : option (bulkIndexer * chan) :=
  match chan_queue ch with
  | b :: rest => Some (b, {| chan_cap := chan_cap ch; chan_queue := rest |})
  | [] => None
  end.

(** A flush task of the worker group: the context given to
    [flushActiveLocked] and the buffer handed off. *)
Record flushTask : Type := {
  task_ctx : Context;
  task_buf : bulkIndexer
}.

(** [errgroup.Group]: the tasks that have not returned yet and the
    first non-nil error a task returned. *)
Record Group : Type := {
  running : list flushTask;
  g_err : option error
}.

Definition Group_zero : Group := {| running := []; g_err := None |}.

Definition Group_Go (t : flushTask) (g : Group) : Group :=
  {| running := (running g ++ [t])%list; g_err := g_err g |}.

(** A task returns [err]: only the first non-nil error is kept. *)
Definition Group_done (err : option error) (g : Group) : option error :=
  match g_err g with
  | Some e => Some e
  | None => err
  end.

(** *** The indexer *)

Record Config : Type := {
  MaxRequests : Z;
  FlushBytes : Z;
  FlushInterval : Z        (* time.Duration, in nanoseconds *)
}.

Definition time_Second : Z := 1000000000.

Record Indexer : Type := {
  counters : Counters;
  config : Config;
  available : chan;
  g : Group;
  closing : bool;
  closed : bool;                 (* whether the channel [closed] is closed *)
  active : option bulkIndexer;
  timer : option Timer
}.

Definition set_counters (c : Counters) (i : Indexer) : Indexer :=
  {| counters := c; config := config i; available := available i; g := g i;
     closing := closing i; closed := closed i; active := active i; timer := timer i |}.

Definition set_available (ch : chan) (i : Indexer) : Indexer :=
  {| counters := counters i; config := config i; available := ch; g := g i;
     closing := closing i; closed := closed i; active := active i; timer := timer i |}.

Definition set_g (gr : Group) (i : Indexer) : Indexer :=
  {| counters := counters i; config := config i; available := available i; g := gr;
     closing := closing i; closed := closed i; active := active i; timer := timer i |}.

Definition set_closing (b : bool) (i : Indexer) : Indexer :=
  {| counters := counters i; config := config i; available := available i; g := g i;
     closing := b; closed := closed i; active := active i; timer := timer i |}.

Definition set_closed (b : bool) (i : Indexer) : Indexer :=
  {| counters := counters i; config := config i; available := available i; g := g i;
     closing := closing i; closed := b; active := active i; timer := timer i |}.

Definition set_active (a : option bulkIndexer) (i : Indexer) : Indexer :=
  {| counters := counters i; config := config i; available := available i; g := g i;
     closing := closing i; closed := closed i; active := a; timer := timer i |}.

Definition set_timer (t : option Timer) (i : Indexer) : Indexer :=
  {| counters := counters i; config := config i; available := available i; g := g i;
     closing := closing i; closed := closed i; active := active i; timer := t |}.

(** The loop of [New] that fills the channel: [None] if a send blocks. *)
Fixpoint fill_available (n : nat) (ch : chan) : option chan :=
  match n with
  | O => Some ch
  | S n' =>
      match chan_send newBulkIndexer ch with
      | Some ch' => fill_available n' ch'
      | None => None
      end
  end.

Definition normalize (cfg : Config) : Config :=
  let cfg :=
    if MaxRequests cfg <=? 0
    then {| MaxRequests := 10; FlushBytes := FlushBytes cfg;
            FlushInterval := FlushInterval cfg |}
    else cfg in
  let cfg :=
    if FlushBytes cfg <=? 0
    then {| MaxRequests := MaxRequests cfg; FlushBytes := 5 * 1024 * 1024;
            FlushInterval := FlushInterval cfg |}
    else cfg in
  if FlushInterval cfg <=? 0
  then {| MaxRequests := MaxRequests cfg; FlushBytes := FlushBytes cfg;
          FlushInterval := 30 * time_Second |}
  else cfg.

(** [New]: [None] if the function does not return. *)
Definition New (cfg : Config) : option Indexer :=
  let cfg := normalize cfg in
  let available := make_chan (MaxRequests cfg) in
  match fill_available (Z.to_nat (MaxRequests cfg)) available with
  | Some available =>
      Some {| counters := counters_zero;
              config := cfg;
              available := available;
              g := Group_zero;
              closing := false;
              closed := false;
              active := None;
              timer := None |}
  | None => None
  end.

Definition Indexer_Stats (i : Indexer) : Stats :=
  {| Added := eventsAdded (counters i);
     Active := eventsActive (counters i);
     Failed := eventsFailed (counters i) |}.

(** *** The flush worker *)

(** The test of the scan in [flush]. *)
Definition info_failed (info : BulkIndexerResponseItem) : bool :=
  negb (String.eqb (err_Type (Error info)) "") || (201 <? Status info).

(** The two nested loops of [flush] over the response: the local
    counter [eventsFailed], an [int64]. *)
Definition scan_item (eventsFailed : Z)
    (item : list (string * BulkIndexerResponseItem)) : Z :=
  fold_left
    (fun eventsFailed kv =>
       if info_failed (snd kv) then wrap64 (eventsFailed + 1) else eventsFailed)
    item eventsFailed.

Definition scan_response (resp : BulkIndexerResponse) : Z :=
  fold_left scan_item (Items resp) 0.

(** The deferred statement of [flush]. *)
Definition flush_deferred (n : Z) (c : Counters) : Counters :=
  add_eventsActive (wrap64 (- n)) c.

(** [flush], for a store that answers the bulk request of a buffer
    with [store]: the error returned, the counters, and the bulk
    requests issued to the store. *)
Definition flush (store : bulkIndexer -> error + BulkIndexerResponse)
    (b : bulkIndexer) (c : Counters)
  : option error * Counters * list bulkIndexer :=
  let n := bulkIndexer_Items b in
  if n =? 0 then (None, c, [])
  else
    match store b with
    | inl err =>
        let c := add_eventsFailed n c in
        (Some err, flush_deferred n c, [b])
    | inr resp =>
        let eventsFailed := scan_response resp in
        let c := if 0 <? eventsFailed then add_eventsFailed eventsFailed c else c in
        (None, flush_deferred n c, [b])
    end.

(** *** Handoff and the operations of the indexer *)

(** How a call ends: it returns an error or nil, it blocks for ever,
    or it dereferences a nil pointer. *)
Inductive outcome : Type :=
| Returned (err : option error)
| Blocked
| Panicked.

(** [flushActiveLocked]: [None] when the active buffer is nil, which
    the task would dereference. *)
Definition flushActiveLocked (ctx : Context) (i : Indexer) : option Indexer :=
  match active i with
  | Some bulkIndexer =>
      let i := set_active None i in
      Some (set_g (Group_Go {| task_ctx := ctx; task_buf := bulkIndexer |} (g i)) i)
  | None => None
  end.

(** The callback of the timer. *)
Definition flushActive (i : Indexer) : option Indexer :=
  flushActiveLocked context_Background i.

(** The timer reaches its deadline: the callback is scheduled. *)
Definition timer_fires (i : Indexer) : Indexer :=
  match timer i with
  | Some (TimerArmed _) => set_timer (Some TimerFired) i
  | _ => i
  end.

Fixpoint remove_nth {A : Type} (k : nat) (l : list A) : list A :=
  match l, k with
  | [], _ => []
  | _ :: l', O => l'
  | x :: l', S k' => x :: remove_nth k' l'
  end.

(** The task that [flushActiveLocked] starts, run to its end for the
    [k]-th running task: [None] when there is no such task or the send
    to the channel blocks.  The store is asked with the flag that
    tells whether the context of the flush is cancelled. *)
Definition runFlushTask (store : bool -> bulkIndexer -> error + BulkIndexerResponse)
    (k : nat) (i : Indexer) : option Indexer :=
  match nth_error (running (g i)) k with
  | None => None
  | Some t =>
      let cancelled := ctx_done (task_ctx t) || closed i in
      let '(err, c, _) := flush (store cancelled) (task_buf t) (counters i) in
      let bulkIndexer := bulkIndexer_Reset (task_buf t) in
      match chan_send bulkIndexer (available i) with
      | None => None
      | Some ch =>
          Some (set_g {| running := remove_nth k (running (g i));
                         g_err := Group_done err (g i) |}
                  (set_available ch (set_counters c i)))
      end
  end.

(** [i.g.Wait()]: the running tasks end one after the other, in the
    order that [sched] picks, and the first error is returned. *)
Fixpoint Wait_loop (store : bool -> bulkIndexer -> error + BulkIndexerResponse)
    (fuel : nat) (sched : list nat) (i : Indexer) : outcome * Indexer :=
  match running (g i) with
  | [] => (Returned (g_err (g i)), i)
  | _ :: _ =>
      match fuel with
      | O => (Blocked, i)
      | S fuel' =>
          let k := (hd O sched mod List.length (running (g i)))%nat in
          match runFlushTask store k i with
          | None => (Blocked, i)
          | Some i' => Wait_loop store fuel' (tl sched) i'
          end
      end
  end.

Definition Group_Wait (store : bool -> bulkIndexer -> error + BulkIndexerResponse)
    (sched : list nat) (i : Indexer) : outcome * Indexer :=
  Wait_loop store (List.length (running (g i))) sched i.

(** [Close].  While [Close] waits, the channel [closed] is closed as
    soon as [ctx] is done; it is closed when [Close] returns. *)
Definition Close (store : bool -> bulkIndexer -> error + BulkIndexerResponse)
    (sched : list nat) (ctx : Context) (i : Indexer) : outcome * Indexer :=
  if closing i then Group_Wait store sched i
  else
    let i := set_closing true i in
    let handed :=
      match active i with
      | Some _ =>
          match timer i with
          | Some t =>
              let (stopped, t') := Timer_Stop t in
              let i := set_timer (Some t') i in
              if stopped then flushActiveLocked ctx i else Some i
          | None => None
          end
      | None => Some i
      end in
    match handed with
    | None => (Panicked, i)
    | Some i =>
        let i := if ctx_done ctx then set_closed true i else i in
        let (out, i) := Group_Wait store sched i in
        match out with
        | Returned err => (Returned err, set_closed true i)
        | _ => (out, i)
        end
    end.

Section Events.

(** [AddRaw ctx event]: the bytes that the encoder writes for
    [event.BeatEvent(ctx)], or its error.  [writeMeta index action]:
    the metadata line of a bulk item. *)
Variable AddRaw : Context -> APMEvent -> error + string.
Variable writeMeta : string -> string -> string.

(** Modelled from the spec: [Add] of the bulk buffer, which is not
    under src/ (see [bulkIndexer]).  The spec gives it no failure. *)
Definition bulkIndexer_Add (item : BulkIndexerItem) (b : bulkIndexer)
  : error + bulkIndexer :=
  inr {| bi_items := (bi_items b ++ [item])%list;
         bi_len := bi_len b
                   + Z.of_nat (String.length (writeMeta (Index item) (Action item)))
                   + Z.of_nat (String.length (buf (Body item)));
         bi_count := bi_count b + 1 |}.

(** What the environment decides for one call of [processEvent]:
    what [pool.Get()] returns, and which case a [select] with two
    ready cases takes. *)
Record eventEnv : Type := {
  pool_get : option pooledReader;
  select_ctx_first : bool
}.

Inductive acquired : Type :=
| AcqOk (i : Indexer)
| AcqErr (err : error)
| AcqBlocked.

(** The statement [if i.active == nil { ... }] of [processEvent]. *)
Definition acquire (env : eventEnv) (ctx : Context) (i : Indexer) : acquired :=
  match active i with
  | Some _ => AcqOk i
  | None =>
      let take (b : bulkIndexer) (ch : chan) :=
        let i := set_active (Some b) (set_available ch i) in
        match timer i with
        | None => set_timer (Some (TimerArmed (FlushInterval (config i)))) i
        | Some t => set_timer (Some (Timer_Reset (FlushInterval (config i)) t)) i
        end in
      match ctx_err ctx, chan_recv (available i) with
      | Some err, None => AcqErr err
      | Some err, Some (b, ch) =>
          if select_ctx_first env then AcqErr err else AcqOk (take b ch)
      | None, Some (b, ch) => AcqOk (take b ch)
      | None, None => AcqBlocked
      end
  end.

(** The name that [processEvent] builds in the name builder. *)
Definition write_index (event : APMEvent) (r : pooledReader) : pooledReader :=
  let w (s : string) (r : pooledReader) :=
    {| buf := buf r; indexBuilder := indexBuilder r ++ s |} in
  w (ds_Namespace (ev_DataStream event))
    (w "-"
       (w (ds_Dataset (ev_DataStream event))
          (w "-"
             (w (ds_Type (ev_DataStream event)) r)))).

(** The statements of [processEvent] after [i.active.Add] succeeded,
    [i] holding the buffer with the item. *)
Definition after_Add (i : Indexer) : outcome * Indexer :=
  let i := set_counters (add_eventsAdded 1 (counters i)) i in
  let i := set_counters (add_eventsActive 1 (counters i)) i in
  match active i with
  | None => (Panicked, i)
  | Some b =>
      if FlushBytes (config i) <=? bulkIndexer_Len b then
        match timer i with
        | None => (Panicked, i)
        | Some t =>
            let (stopped, t') := Timer_Stop t in
            let i := set_timer (Some t') i in
            if stopped then
              match flushActiveLocked context_Background i with
              | Some i => (Returned None, i)
              | None => (Panicked, i)
              end
            else (Returned None, i)
        end
      else (Returned None, i)
  end.

Definition processEvent (env : eventEnv) (ctx : Context) (event : APMEvent)
    (i : Indexer) : outcome * Indexer :=
  let r := getPooledReader (pool_get env) in
  match AddRaw ctx event with
  | inl err => (Returned (Some err), i)
  | inr bytes =>
      let r := {| buf := buf r ++ bytes; indexBuilder := indexBuilder r |} in
      let r := write_index event r in
      let index := indexBuilder r in
      match acquire env ctx i with
      | AcqErr err => (Returned (Some err), i)
      | AcqBlocked => (Blocked, i)
      | AcqOk i =>
          match active i with
          | None => (Panicked, i)
          | Some b =>
              match bulkIndexer_Add
                      {| Index := index; Action := "create"; Body := r |} b with
              | inl err => (Returned (Some err), i)
              | inr b => after_Add (set_active (Some b) i)
              end
          end
      end
  end.

(** The loop of [ProcessBatch]; [env k] is the environment of the
    event at position [k] of the batch. *)
Fixpoint ProcessBatch_loop (env : nat -> eventEnv) (k : nat) (ctx : Context)
    (batch : Batch) (i : Indexer) : outcome * Indexer :=
  match batch with
  | [] => (Returned None, i)
  | event :: rest =>
      match processEvent (env k) ctx event i with
      | (Returned None, i) => ProcessBatch_loop env (S k) ctx rest i
      | (out, i) => (out, i)
      end
  end.

Definition ProcessBatch (env : nat -> eventEnv) (ctx : Context)
    (batch : Batch) (i : Indexer) : outcome * Indexer :=
  if closing i then (Returned (Some ErrClosed), i)
  else ProcessBatch_loop env O ctx batch i.

End Events.

(** *** Construction *)

Lemma fill_available_spec (n : nat) :
  forall ch : chan,
    Z.of_nat (List.length (chan_queue ch)) + Z.of_nat n <= chan_cap ch ->
    fill_available n ch =
    Some {| chan_cap := chan_cap ch;
            chan_queue := (chan_queue ch ++ repeat newBulkIndexer n)%list |}.
Proof.
  induction n as [|n IH]; intros ch Hroom.
  - simpl. rewrite app_nil_r. now destruct ch.
  - cbn [fill_available]. unfold chan_send.
    destruct (Z.ltb_spec (Z.of_nat (List.length (chan_queue ch))) (chan_cap ch)) as [_|Hfull];
      [|lia].
    rewrite IH.
    + cbn [chan_cap chan_queue]. rewrite <- app_assoc. reflexivity.
    + cbn [chan_cap chan_queue]. rewrite length_app. simpl. lia.
Qed.

Lemma normalize_MaxRequests_pos (cfg : Config) : 0 < MaxRequests (normalize cfg).
Proof.
  unfold normalize.
  repeat match goal with
         | |- context [?a <=? ?b] => destruct (Z.leb_spec a b)
         end; cbn in *; lia.
Qed.

(** C7: [New] returns an indexer whose configuration has
    [MaxRequests = 10] when the given value is [<= 0], [FlushBytes =
    5*1024*1024] when the given value is [<= 0], and [FlushInterval =
    30s] when the given value is [<= 0], the given values otherwise;
    the idle pool is a channel of capacity [MaxRequests] that holds
    exactly [MaxRequests] new bulk buffers; the active slot and the
    timer are empty. *)
Theorem New_normalizes_and_fills_pool (cfg : Config) :
  exists i : Indexer,
    New cfg = Some i /\
    MaxRequests (config i) = (if MaxRequests cfg <=? 0 then 10 else MaxRequests cfg) /\
    FlushBytes (config i) = (if FlushBytes cfg <=? 0 then 5 * 1024 * 1024 else FlushBytes cfg) /\
    FlushInterval (config i) =
      (if FlushInterval cfg <=? 0 then 30 * time_Second else FlushInterval cfg) /\
    chan_cap (available i) = MaxRequests (config i) /\
    chan_queue (available i) = repeat newBulkIndexer (Z.to_nat (MaxRequests (config i))) /\
    Z.of_nat (List.length (chan_queue (available i))) = MaxRequests (config i) /\
    active i = None /\
    timer i = None /\
    closing i = false /\
    counters i = counters_zero.
Proof.
  pose proof (normalize_MaxRequests_pos cfg) as Hpos.
  unfold New.
  rewrite fill_available_spec by (cbn; lia).
  eexists. split; [reflexivity|].
  cbn [config available active timer closing counters chan_cap chan_queue make_chan app].
  repeat split.
  - unfold normalize.
    repeat match goal with
           | |- context [?a <=? ?b] => destruct (Z.leb_spec a b)
           end; reflexivity.
  - unfold normalize.
    repeat match goal with
           | |- context [?a <=? ?b] => destruct (Z.leb_spec a b)
           end; cbn in *; try reflexivity; lia.
  - unfold normalize.
    repeat match goal with
           | |- context [?a <=? ?b] => destruct (Z.leb_spec a b)
           end; cbn in *; try reflexivity; lia.
  - rewrite repeat_length. lia.
Qed.

(** *** The flush worker counts the failed entries *)

(** The entries of a response that the scan counts as failed. *)
Definition failed_entries (resp : BulkIndexerResponse) : nat :=
  List.length (filter info_failed (map snd (List.concat (Items resp)))).

Lemma scan_item_spec (item : list (string * BulkIndexerResponseItem)) :
  forall ef : Z,
    scan_item (wrap64 ef) item =
    wrap64 (ef + Z.of_nat (List.length (filter info_failed (map snd item)))).
Proof.
  unfold scan_item.
  induction item as [|kv item IH]; intro ef; cbn [fold_left map filter].
  - cbn. f_equal. lia.
  - destruct (info_failed (snd kv)).
    + rewrite wrap64_add_l, IH. f_equal. cbn [List.length]. lia.
    + apply IH.
Qed.

Lemma scan_response_spec (resp : BulkIndexerResponse) :
  scan_response resp = wrap64 (Z.of_nat (failed_entries resp)).
Proof.
  unfold scan_response, failed_entries.
  change 0 with (wrap64 0) at 1.
  change (Z.of_nat (List.length (filter info_failed (map snd (List.concat (Items resp))))))
    with (0 + Z.of_nat (List.length (filter info_failed (map snd (List.concat (Items resp)))))).
  generalize 0 as ef.
  induction (Items resp) as [|item items IH]; intro ef; cbn [fold_left List.concat].
  - cbn. f_equal. lia.
  - rewrite scan_item_spec, IH, map_app, filter_app, length_app. f_equal. lia.
Qed.

(** The items of a response that hold a failed entry. *)
Definition failed_items (resp : BulkIndexerResponse) : nat :=
  List.length
    (filter (fun item => existsb (fun kv => info_failed (snd kv)) item) (Items resp)).

Lemma failed_entries_one_per_item (resp : BulkIndexerResponse) :
  Forall (fun item => List.length item = 1%nat) (Items resp) ->
  failed_entries resp = failed_items resp.
Proof.
  unfold failed_entries, failed_items.
  induction (Items resp) as [|item items IH]; intro H; [reflexivity|].
  inversion H as [|? ? Hone Hrest]; subst.
  destruct item as [|kv [|kv' item]]; try discriminate.
  cbn [List.concat app map filter existsb].
  rewrite orb_false_r.
  destruct (info_failed (snd kv)); cbn [List.length]; rewrite (IH Hrest); reflexivity.
Qed.

(** C5: when a buffer of [n > 0] items is flushed and the bulk request
    succeeds, [flush] returns nil after one request to the store,
    [failed] has grown by the number of entries of the response whose
    status is above 201 or whose error type is not empty, [active] has
    shrunk by [n] and [added] is unchanged (the sums staying inside
    [int64]); the entries counted are the items of the response when
    every item holds one entry; for a buffer of zero items [flush]
    returns nil, issues no request and leaves the counters as they
    are. *)
Theorem flush_counts_failed_entries
    (store : bulkIndexer -> error + BulkIndexerResponse)
    (b : bulkIndexer) (c : Counters) :
  (forall resp : BulkIndexerResponse,
      0 < bulkIndexer_Items b ->
      store b = inr resp ->
      in_int64 (Z.of_nat (failed_entries resp)) ->
      in_int64 (eventsFailed c + Z.of_nat (failed_entries resp)) ->
      in_int64 (eventsActive c - bulkIndexer_Items b) ->
      flush store b c =
        (None,
         {| eventsAdded := eventsAdded c;
            eventsActive := eventsActive c - bulkIndexer_Items b;
            eventsFailed := eventsFailed c + Z.of_nat (failed_entries resp) |},
         [b]) /\
      (Forall (fun item => List.length item = 1%nat) (Items resp) ->
       failed_entries resp = failed_items resp)) /\
  (bulkIndexer_Items b = 0 -> flush store b c = (None, c, [])).
Proof.
  split.
  - intros resp Hn Hstore Hk Hfk Ha.
    split; [|apply failed_entries_one_per_item].
    unfold flush. rewrite Hstore.
    destruct (Z.eqb_spec (bulkIndexer_Items b) 0) as [E|_]; [lia|].
    rewrite scan_response_spec.
    rewrite (wrap64_id _ Hk).
    unfold flush_deferred, add_eventsActive, add_eventsFailed, atomic_AddInt64.
    destruct (Z.ltb_spec 0 (Z.of_nat (failed_entries resp))) as [Hpos|Hzero];
      cbn [eventsAdded eventsActive eventsFailed];
      rewrite wrap64_add_r;
      replace (eventsActive c + - bulkIndexer_Items b)
        with (eventsActive c - bulkIndexer_Items b) by lia;
      rewrite (wrap64_id _ Ha).
    + rewrite (wrap64_id _ Hfk). reflexivity.
    + replace (Z.of_nat (failed_entries resp)) with 0 by lia.
      rewrite Z.add_0_r. reflexivity.
  - intro Hn. unfold flush. rewrite Hn. reflexivity.
Qed.

(** The response of the per-item failure scenario: ten entries, the
    fourth with status 409, the others with status 201. *)
Definition entry (status : Z) : list (string * BulkIndexerResponseItem) :=
  [("create", {| Status := status;
                 Error := {| err_Type := ""; err_Reason := "" |} |})].

Definition response_one_conflict : BulkIndexerResponse :=
  {| Items := [entry 201; entry 201; entry 201; entry 409; entry 201;
               entry 201; entry 201; entry 201; entry 201; entry 201] |}.

Definition buffer_of_ten : bulkIndexer :=
  {| bi_items := []; bi_len := 100; bi_count := 10 |}.

Lemma flush_counts_failed_entries_witness :
  flush (fun _ => inr response_one_conflict) buffer_of_ten
    {| eventsAdded := 10; eventsActive := 10; eventsFailed := 0 |} =
  (None, {| eventsAdded := 10; eventsActive := 0; eventsFailed := 1 |},
   [buffer_of_ten]).
Proof.
  apply (proj1 (flush_counts_failed_entries (fun _ => inr response_one_conflict)
                  buffer_of_ten
                  {| eventsAdded := 10; eventsActive := 10; eventsFailed := 0 |})
           response_one_conflict).
  - reflexivity.
  - reflexivity.
  - unfold in_int64. cbn. lia.
  - unfold in_int64. cbn. lia.
  - unfold in_int64. cbn. lia.
Defined.

(** *** Closing the indexer *)

(** The error that [flush] returns. *)
Definition flush_error (store : bulkIndexer -> error + BulkIndexerResponse)
    (b : bulkIndexer) : option error :=
  if bulkIndexer_Items b =? 0 then None
  else match store b with
       | inl err => Some err
       | inr _ => None
       end.

Lemma flush_returns_flush_error (store : bulkIndexer -> error + BulkIndexerResponse)
    (b : bulkIndexer) (c : Counters) :
  fst (fst (flush store b c)) = flush_error store b.
Proof.
  unfold flush, flush_error.
  destruct (bulkIndexer_Items b =? 0); [reflexivity|].
  destruct (store b); reflexivity.
Qed.

(** The first non-nil error of a sequence of task results, after the
    error [e0] that the group already holds. *)
Definition first_error (e0 : option error) (results : list (option error))
  : option error :=
  fold_left (fun acc r => match acc with Some e => Some e | None => r end)
    results e0.

(** The order in which [Wait_loop] lets the tasks end. *)
Fixpoint completion_order (fuel : nat) (sched : list nat) (tasks : list flushTask)
  : list flushTask :=
  match tasks, fuel with
  | [], _ => []
  | _ :: _, O => []
  | _ :: _, S fuel' =>
      let k := (hd O sched mod List.length tasks)%nat in
      match nth_error tasks k with
      | Some t => t :: completion_order fuel' (tl sched) (remove_nth k tasks)
      | None => []
      end
  end.

(** What the flush task [t] returns when the lifecycle channel is
    closed or not, as [flag] tells. *)
Definition task_result (store : bool -> bulkIndexer -> error + BulkIndexerResponse)
    (flag : bool) (t : flushTask) : option error :=
  flush_error (store (ctx_done (task_ctx t) || flag)) (task_buf t).

(** The idle pool has room for the buffers of the running tasks and
    for the active buffer. *)
Definition buffers_fit (i : Indexer) : Prop :=
  Z.of_nat (List.length (chan_queue (available i)))
  + Z.of_nat (List.length (running (g i)))
  + (match active i with Some _ => 1 | None => 0 end)
  <= chan_cap (available i).

(** An active buffer comes with a timer. *)
Definition timer_set (i : Indexer) : Prop :=
  active i = None \/ timer i <> None.

Lemma remove_nth_length {A : Type} (k : nat) (l : list A) (x : A) :
  nth_error l k = Some x -> List.length l = S (List.length (remove_nth k l)).
Proof.
  revert k. induction l as [|y l IH]; intros [|k] H; cbn in *; try discriminate.
  - reflexivity.
  - f_equal. now apply IH.
Qed.

Lemma remove_nth_perm {A : Type} (k : nat) (l : list A) (x : A) :
  nth_error l k = Some x -> Permutation (x :: remove_nth k l) l.
Proof.
  revert k. induction l as [|y l IH]; intros [|k] H; cbn in *; try discriminate.
  - inversion H. reflexivity.
  - rewrite perm_swap. constructor. now apply IH.
Qed.

Lemma nth_error_mod {A : Type} (l : list A) (n : nat) :
  l <> [] -> exists x, nth_error l (n mod List.length l)%nat = Some x.
Proof.
  intro Hne.
  destruct (nth_error l (n mod List.length l)%nat) as [x|] eqn:E; [eauto|].
  apply nth_error_None in E.
  assert (List.length l <> 0%nat) by (destruct l; cbn; congruence).
  pose proof (Nat.mod_upper_bound n (List.length l) ltac:(assumption)). lia.
Qed.

Lemma completion_order_perm (fuel : nat) :
  forall (sched : list nat) (tasks : list flushTask),
    (List.length tasks <= fuel)%nat ->
    Permutation (completion_order fuel sched tasks) tasks.
Proof.
  induction fuel as [|fuel IH]; intros sched tasks Hlen.
  - destruct tasks; [constructor | cbn in Hlen; lia].
  - destruct tasks as [|t0 ts]; [constructor|].
    cbn [completion_order].
    destruct (nth_error_mod (t0 :: ts) (hd O sched) ltac:(discriminate)) as [t Ht].
    rewrite Ht.
    eapply perm_trans; [|exact (remove_nth_perm _ _ _ Ht)].
    constructor.
    apply IH. pose proof (remove_nth_length _ _ _ Ht). cbn [List.length] in *. lia.
Qed.

Lemma first_error_Some (e : error) (results : list (option error)) :
  first_error (Some e) results = Some e.
Proof. induction results as [|r rs IH]; cbn; [reflexivity | exact IH]. Qed.

Lemma Wait_loop_spec (store : bool -> bulkIndexer -> error + BulkIndexerResponse)
    (fuel : nat) :
  forall (sched : list nat) (i : Indexer),
    (List.length (running (g i)) <= fuel)%nat ->
    Z.of_nat (List.length (chan_queue (available i)))
    + Z.of_nat (List.length (running (g i))) <= chan_cap (available i) ->
    exists i',
      Wait_loop store fuel sched i =
        (Returned
           (first_error (g_err (g i))
              (map (task_result store (closed i))
                 (completion_order fuel sched (running (g i))))),
         i') /\
      running (g i') = [] /\
      closing i' = closing i /\ closed i' = closed i /\
      active i' = active i /\ timer i' = timer i /\ config i' = config i.
Proof.
  induction fuel as [|fuel IH]; intros sched i Hlen Hroom.
  - destruct (running (g i)) as [|t0 ts] eqn:Hrun; [|cbn in Hlen; lia].
    exists i. cbn. rewrite Hrun. cbn. repeat split; auto.
  - cbn [Wait_loop].
    destruct (running (g i)) as [|t0 ts] eqn:Hrun.
    + exists i. cbn. repeat split; auto.
    + destruct (nth_error_mod (t0 :: ts) (hd O sched) ltac:(discriminate)) as [t Ht].
      cbn [completion_order].
      set (k := (hd O sched mod List.length (t0 :: ts))%nat) in *.
      unfold runFlushTask. rewrite Hrun, Ht.
      destruct (flush (store (ctx_done (task_ctx t) || closed i)) (task_buf t) (counters i))
        as [[err c] issued] eqn:Hflush.
      pose proof (flush_returns_flush_error
                    (store (ctx_done (task_ctx t) || closed i)) (task_buf t) (counters i))
        as Herr.
      rewrite Hflush in Herr. cbn in Herr.
      unfold chan_send.
      destruct (Z.ltb_spec (Z.of_nat (List.length (chan_queue (available i))))
                  (chan_cap (available i))) as [_|Hfull];
        [|cbn [List.length] in Hroom; lia].
      pose proof (remove_nth_length _ _ _ Ht) as Hrm.
      match goal with
      | |- context [Wait_loop store fuel (tl sched) ?j] =>
          destruct (IH (tl sched) j) as (i' & HW & Hr & Hc & Hcl & Ha & Ht' & Hcfg)
      end.
      * cbn [g set_g running]. cbn [List.length] in Hlen, Hrm. lia.
      * cbn [g set_g running available set_available chan_queue chan_cap].
        rewrite length_app. cbn [List.length] in Hroom, Hrm |- *. lia.
      * exists i'. rewrite HW.
        cbn [g set_g set_available set_counters running g_err closed closing
               active timer config] in Hc, Hcl, Ha, Ht', Hcfg |- *.
        cbn [map first_error fold_left].
        repeat split; try assumption.
        do 2 f_equal. unfold Group_done, task_result. rewrite Herr.
        destruct (g_err (g i)); reflexivity.
Qed.

(** The flush tasks in flight while [Close] waits: the running ones,
    and the one of the active buffer if [Close] hands it off. *)
Definition in_flight (ctx : Context) (i : Indexer) : list flushTask :=
  (running (g i) ++
   (if closing i then []
    else match active i, timer i with
         | Some b, Some (TimerArmed _) => [{| task_ctx := ctx; task_buf := b |}]
         | _, _ => []
         end))%list.

(** Whether the lifecycle channel is closed while [Close] waits. *)
Definition closed_during_wait (ctx : Context) (i : Indexer) : bool :=
  closed i || (negb (closing i) && ctx_done ctx).

Lemma Close_spec (store : bool -> bulkIndexer -> error + BulkIndexerResponse)
    (sched : list nat) (ctx : Context) (i : Indexer) :
  buffers_fit i -> timer_set i ->
  exists (i' : Indexer) (order : list flushTask),
    Permutation order (in_flight ctx i) /\
    Close store sched ctx i =
      (Returned
         (first_error (g_err (g i))
            (map (task_result store (closed_during_wait ctx i)) order)),
       i') /\
    running (g i') = [] /\
    closing i' = true /\
    active i' = (if closing i then active i
                 else match timer i with
                      | Some (TimerArmed _) => None
                      | _ => active i
                      end).
Proof.
  intros Hfit Hts. unfold Close, in_flight, closed_during_wait.
  destruct (closing i) eqn:Hclosing.
  - unfold Group_Wait.
    destruct (Wait_loop_spec store (List.length (running (g i))) sched i)
      as (i' & HW & Hr & Hc & Hcl & Ha & Ht & Hcfg).
    + lia.
    + unfold buffers_fit in Hfit. destruct (active i); lia.
    + exists i', (completion_order (List.length (running (g i))) sched (running (g i))).
      rewrite app_nil_r, orb_false_r. repeat split; try assumption; try congruence.
      apply completion_order_perm. lia.
  - cbn [negb andb active set_closing timer].
    (* the state in which the wait starts *)
    set (i0 := set_closing true i).
    assert (Hstart :
      exists i1,
        match active i with
        | Some _ =>
            match timer i with
            | Some t =>
                let (stopped, t') := Timer_Stop t in
                if stopped then flushActiveLocked ctx (set_timer (Some t') i0)
                else Some (set_timer (Some t') i0)
            | None => None
            end
        | None => Some i0
        end = Some i1 /\
        running (g i1) =
          (running (g i) ++
           match active i, timer i with
           | Some b, Some (TimerArmed _) => [{| task_ctx := ctx; task_buf := b |}]
           | _, _ => []
           end)%list /\
        g_err (g i1) = g_err (g i) /\ closed i1 = closed i /\ closing i1 = true /\
        available i1 = available i /\
        active i1 = match timer i with
                    | Some (TimerArmed _) => None
                    | _ => active i
                    end).
    { destruct (active i) as [b|] eqn:Hact.
      - destruct (timer i) as [t|] eqn:Ht.
        + destruct t; cbn; unfold flushActiveLocked; cbn; rewrite ?Hact;
            eexists; (split; [reflexivity|]); cbn; rewrite ?app_nil_r; repeat split;
            assumption.
        + destruct Hts; congruence.
      - exists i0. cbn. rewrite app_nil_r.
        repeat split; try assumption.
        destruct (timer i) as [[]|]; cbn; congruence. }
    destruct Hstart as (i1 & Hi1 & Hrun1 & Herr1 & Hcl1 & Hclosing1 & Hav1 & Hact1).
    fold i0. rewrite Hi1.
    set (i2 := if ctx_done ctx then set_closed true i1 else i1).
    assert (Hi2 : running (g i2) = running (g i1) /\ g_err (g i2) = g_err (g i1) /\
                  closed i2 = closed i || ctx_done ctx /\ closing i2 = true /\
                  available i2 = available i1 /\ active i2 = active i1).
    { unfold i2. destruct (ctx_done ctx); cbn; rewrite ?orb_true_r, ?orb_false_r;
        repeat split; assumption. }
    destruct Hi2 as (Hrun2 & Herr2 & Hcl2 & Hclosing2 & Hav2 & Hact2).
    unfold Group_Wait.
    destruct (Wait_loop_spec store (List.length (running (g i2))) sched i2)
      as (i' & HW & Hr & Hc & Hcl & Ha & Ht & Hcfg).
    + lia.
    + rewrite Hav2, Hav1, Hrun2, Hrun1, length_app.
      unfold buffers_fit in Hfit.
      destruct (active i), (timer i) as [[]|]; cbn [List.length]; lia.
    + rewrite HW.
      exists (set_closed true i'),
        (completion_order (List.length (running (g i2))) sched (running (g i2))).
      rewrite Herr2, Herr1, Hcl2. cbn.
      repeat split; try congruence.
      rewrite <- Hrun1, <- Hrun2. apply completion_order_perm. lia.
Qed.

Lemma runFlushTask_closing (store : bool -> bulkIndexer -> error + BulkIndexerResponse)
    (k : nat) (i i' : Indexer) :
  runFlushTask store k i = Some i' -> closing i' = closing i.
Proof.
  unfold runFlushTask.
  destruct (nth_error (running (g i)) k) as [t|]; [|discriminate].
  destruct (flush _ _ _) as [[err c] issued].
  destruct (chan_send _ _); [|discriminate].
  intro H. inversion H. reflexivity.
Qed.

Lemma Wait_loop_closing (store : bool -> bulkIndexer -> error + BulkIndexerResponse)
    (fuel : nat) :
  forall (sched : list nat) (i : Indexer),
    closing (snd (Wait_loop store fuel sched i)) = closing i.
Proof.
  induction fuel as [|fuel IH]; intros sched i; cbn [Wait_loop];
    destruct (running (g i)); try reflexivity.
  destruct (runFlushTask store _ i) as [i'|] eqn:E; [|reflexivity].
  rewrite IH. exact (runFlushTask_closing _ _ _ _ E).
Qed.

Lemma Close_sets_closing (store : bool -> bulkIndexer -> error + BulkIndexerResponse)
    (sched : list nat) (ctx : Context) (i : Indexer) :
  closing (snd (Close store sched ctx i)) = true.
Proof.
  unfold Close. destruct (closing i) eqn:Hc.
  - unfold Group_Wait. now rewrite Wait_loop_closing.
  - match goal with
    | |- context [match ?h with Some _ => _ | None => _ end] =>
        assert (Hh : forall j, h = Some j -> closing j = true)
    end.
    { intros j. cbn [active set_closing timer].
      destruct (active i) eqn:Ha.
      - destruct (timer i) as [[]|]; cbn; unfold flushActiveLocked; cbn;
          rewrite ?Ha; intro H; inversion H; reflexivity.
      - intro H. inversion H. reflexivity. }
    match goal with
    | |- context [match ?h with Some _ => _ | None => _ end] =>
        destruct h as [j|]; [|reflexivity]
    end.
    specialize (Hh j eq_refl).
    set (j2 := if ctx_done ctx then set_closed true j else j).
    assert (Hj2 : closing j2 = true) by (unfold j2; destruct (ctx_done ctx); assumption).
    unfold Group_Wait.
    pose proof (Wait_loop_closing store (List.length (running (g j2))) sched j2) as HW.
    destruct (Wait_loop store _ sched j2) as [out j3]. cbn in HW.
    destruct out; cbn; congruence.
Qed.

(** A store that fails every bulk request: with the context error
    when the context of the flush is cancelled, with a transport error
    otherwise. *)
Definition store_failing (cancelled : bool) (_ : bulkIndexer)
  : error + BulkIndexerResponse :=
  if cancelled then inl ContextCanceled else inl (ErrOther "transport").

Definition ctx_cancelled : Context := {| ctx_err := Some ContextCanceled |}.

Definition config_small : Config :=
  {| MaxRequests := 2; FlushBytes := 1; FlushInterval := 0 |}.

Definition encode_doc (_ : Context) (_ : APMEvent) : error + string := inr "{}".

Definition meta_line (index action : string) : string :=
  (action ++ " " ++ index)%string.

Definition env_fresh : eventEnv := {| pool_get := None; select_ctx_first := false |}.

Definition event_log : APMEvent :=
  {| ev_Timestamp := TimeUnix 1600000000 0;
     ev_Processor := LogProcessor;
     ev_Message := "line1";
     ev_DataStream :=
       {| ds_Type := "logs"; ds_Dataset := "firehose"; ds_Namespace := "default" |};
     ev_CloudOrigin := None;
     ev_ServiceOrigin := None |}.

(** A run: an event crosses the threshold and its flush fails with a
    transport error; a second event crosses the threshold, and its
    flush is in flight. *)
Definition indexer_one_flush_failed : option Indexer :=
  match New config_small with
  | Some i0 =>
      let i1 := snd (processEvent encode_doc meta_line env_fresh
                       context_Background event_log i0) in
      match runFlushTask store_failing 0 i1 with
      | Some i2 =>
          Some (snd (processEvent encode_doc meta_line env_fresh
                       context_Background event_log i2))
      | None => None
      end
  | None => None
  end.

(** C3, as stated, fails: [Close] is called with a cancelled context
    while one flush is in flight; that flush returns the context
    error, and [Close] returns the transport error of the earlier
    flush.  On a new indexer, [Close] with a cancelled context
    returns nil. *)
Lemma Close_cancelled_does_not_return_context_error :
  (exists i t,
      indexer_one_flush_failed = Some i /\
      running (g i) = [t] /\
      task_result store_failing (closed_during_wait ctx_cancelled i) t
        = Some ContextCanceled /\
      fst (Close store_failing [] ctx_cancelled i)
        = Returned (Some (ErrOther "transport")) /\
      fst (Close store_failing [] ctx_cancelled i) <> Returned (ctx_err ctx_cancelled)) /\
  (exists i0,
      New config_small = Some i0 /\
      fst (Close store_failing [] ctx_cancelled i0) = Returned None /\
      fst (Close store_failing [] ctx_cancelled i0) <> Returned (ctx_err ctx_cancelled)).
Proof.
  split.
  - eexists. eexists. split; [vm_compute; reflexivity|].
    split; [reflexivity|]. split; [reflexivity|]. split; [reflexivity|].
    vm_compute. discriminate.
  - eexists. split; [vm_compute; reflexivity|]. split; [reflexivity|].
    vm_compute. discriminate.
Qed.

(** C3, amended: on an indexer whose idle pool has room for its
    buffers, [Close] lets every flush task in flight end (the running
    ones, and the one of the active buffer when [Close] hands it off)
    and returns the first non-nil error that a flush task returned
    during the lifetime of the indexer, or nil if there was none.
    While it waits, the flush tasks run with a cancelled context when
    [ctx] is done; [Close] returns a context error only when that is
    the first error a flush task returned: an earlier error is
    returned whatever [ctx] is, and with no earlier error and no flush
    in flight [Close] returns nil. *)
Theorem Close_returns_first_flush_error
    (store : bool -> bulkIndexer -> error + BulkIndexerResponse)
    (sched : list nat) (ctx : Context) (i : Indexer) :
  buffers_fit i -> timer_set i ->
  exists (i' : Indexer) (order : list flushTask),
    Permutation order (in_flight ctx i) /\
    Close store sched ctx i =
      (Returned
         (first_error (g_err (g i))
            (map (task_result store (closed_during_wait ctx i)) order)),
       i') /\
    running (g i') = [] /\
    closing i' = true /\
    (closing i = false -> ctx_done ctx = true -> closed_during_wait ctx i = true) /\
    (forall e, g_err (g i) = Some e -> Close store sched ctx i = (Returned (Some e), i')) /\
    (g_err (g i) = None -> in_flight ctx i = [] ->
     Close store sched ctx i = (Returned None, i')).
Proof.
  intros Hfit Hts.
  destruct (Close_spec store sched ctx i Hfit Hts)
    as (i' & order & Hperm & HClose & Hrun & Hclosing & _).
  exists i', order. repeat split; try assumption.
  - intros Hc Hd. unfold closed_during_wait. rewrite Hc, Hd. apply orb_true_r.
  - intros e He. rewrite HClose, He, first_error_Some. reflexivity.
  - intros He Hnone. rewrite HClose, He.
    rewrite Hnone in Hperm. apply Permutation_sym, Permutation_nil in Hperm.
    subst order. reflexivity.
Qed.

Definition indexer_in_flight : Indexer :=
  match indexer_one_flush_failed with
  | Some i => i
  | None =>
      {| counters := counters_zero; config := config_small;
         available := make_chan 0; g := Group_zero; closing := false;
         closed := false; active := None; timer := None |}
  end.

Lemma Close_returns_first_flush_error_witness :
  exists (i' : Indexer) (order : list flushTask),
    Permutation order (in_flight ctx_cancelled indexer_in_flight) /\
    Close store_failing [] ctx_cancelled indexer_in_flight =
      (Returned
         (first_error (g_err (g indexer_in_flight))
            (map (task_result store_failing
                    (closed_during_wait ctx_cancelled indexer_in_flight)) order)),
       i').
Proof.
  destruct (Close_returns_first_flush_error store_failing [] ctx_cancelled
              indexer_in_flight) as (i' & order & Hperm & HClose & _).
  - unfold buffers_fit. vm_compute. discriminate.
  - left. reflexivity.
  - exists i', order. split; assumption.
Defined.

(** *** Appending an event *)

Lemma append_assoc (a b c : string) : ((a ++ b) ++ c = a ++ (b ++ c))%string.
Proof. induction a as [|x a IH]; simpl; [reflexivity | now rewrite IH]. Qed.

Section EventProperties.

Variable AddRaw : Context -> APMEvent -> error + string.
Variable writeMeta : string -> string -> string.

Local Abbreviation processEvent := (processEvent AddRaw writeMeta).
Local Abbreviation ProcessBatch := (ProcessBatch AddRaw writeMeta).
Local Abbreviation bulkIndexer_Add := (bulkIndexer_Add writeMeta).

(** The destination name of an event. *)
Definition destination (event : APMEvent) : string :=
  (ds_Type (ev_DataStream event) ++ "-" ++
   ds_Dataset (ev_DataStream event) ++ "-" ++
   ds_Namespace (ev_DataStream event))%string.

(** The reader that [processEvent] hands to the bulk buffer. *)
Definition reader_of (env : eventEnv) (event : APMEvent) (bytes : string)
  : pooledReader :=
  write_index event
    {| buf := buf (getPooledReader (pool_get env)) ++ bytes;
       indexBuilder := indexBuilder (getPooledReader (pool_get env)) |}.

(** The bulk item that [processEvent] passes to [Add]. *)
Definition item_of (env : eventEnv) (event : APMEvent) (bytes : string)
  : BulkIndexerItem :=
  {| Index := indexBuilder (reader_of env event bytes);
     Action := "create";
     Body := reader_of env event bytes |}.

(** Every reader in the pool was put there by [Read] at the end of
    its stream, with its name builder reset. *)
Definition pooled_reset (env : eventEnv) : Prop :=
  match pool_get env with
  | Some r => indexBuilder r = ""
  | None => True
  end.

Lemma pooledReader_Read_puts_reset (n : nat) (r r' : pooledReader) :
  snd (pooledReader_Read n r) = Some r' -> indexBuilder r' = "".
Proof.
  unfold pooledReader_Read.
  destruct ((String.length (buf r) =? 0)%nat && negb (n =? 0)%nat); cbn;
    intro H; inversion H; reflexivity.
Qed.

Lemma item_of_Index (env : eventEnv) (event : APMEvent) (bytes : string) :
  pooled_reset env -> Index (item_of env event bytes) = destination event.
Proof.
  unfold pooled_reset, item_of, reader_of, write_index, destination, getPooledReader.
  intro H. cbn [Index indexBuilder buf].
  destruct (pool_get env) as [r|]; cbn [indexBuilder pooledReader_new];
    [rewrite H|]; cbn [append]; now rewrite !append_assoc.
Qed.

Lemma acquire_frame (env : eventEnv) (ctx : Context) (i i1 : Indexer) :
  acquire env ctx i = AcqOk i1 ->
  g i1 = g i /\ config i1 = config i /\ counters i1 = counters i /\
  closing i1 = closing i /\ closed i1 = closed i /\
  (active i <> None -> i1 = i) /\
  (active i = None ->
   timer i1 = Some (TimerArmed (FlushInterval (config i))) /\
   exists b, chan_recv (available i) = Some (b, available i1) /\
             active i1 = Some b).
Proof.
  unfold acquire. destruct (active i) as [b|] eqn:Hact.
  - intro H. inversion H. subst i1. repeat split; congruence.
  - destruct (ctx_err ctx), (chan_recv (available i)) as [[b ch]|],
      (select_ctx_first env); intro H; inversion H; subst i1;
      destruct (timer i) eqn:Ht; cbn; rewrite ?Ht; cbn;
      repeat split; try congruence; eauto.
Qed.

(** What a call of [processEvent] that returns nil went through:
    the encoding gave [bytes], the indexer [i1] holds an active
    buffer [b] (its own or one taken from the pool), and [b'] is [b]
    with the item of the event added. *)
Definition appended (env : eventEnv) (ctx : Context) (event : APMEvent)
    (i i1 : Indexer) (bytes : string) (b b' : bulkIndexer) : Prop :=
  AddRaw ctx event = inr bytes /\
  acquire env ctx i = AcqOk i1 /\
  active i1 = Some b /\
  bulkIndexer_Add (item_of env event bytes) b = inr b'.

(** The state [i'] in which [processEvent] returns nil after
    [appended]: at or above the threshold the timer is asked to
    stop, and the buffer is handed off exactly when it did stop. *)
Definition after_append (i1 i' : Indexer) (b' : bulkIndexer) : Prop :=
  counters i' = add_eventsActive 1 (add_eventsAdded 1 (counters i1)) /\
  config i' = config i1 /\ available i' = available i1 /\
  closing i' = closing i1 /\ closed i' = closed i1 /\
  if FlushBytes (config i1) <=? bulkIndexer_Len b' then
    exists t : Timer,
      timer i1 = Some t /\
      timer i' = Some (snd (Timer_Stop t)) /\
      if fst (Timer_Stop t) then
        active i' = None /\
        g i' = Group_Go {| task_ctx := context_Background; task_buf := b' |} (g i1)
      else
        active i' = Some b' /\ g i' = g i1
  else
    timer i' = timer i1 /\ active i' = Some b' /\ g i' = g i1.

Lemma processEvent_nil_inv (env : eventEnv) (ctx : Context) (event : APMEvent)
    (i i' : Indexer) :
  processEvent env ctx event i = (Returned None, i') ->
  exists i1 bytes b b',
    appended env ctx event i i1 bytes b b' /\ after_append i1 i' b'.
Proof.
  unfold processEvent.
  destruct (AddRaw ctx event) as [err|bytes] eqn:Henc; [discriminate|].
  destruct (acquire env ctx i) as [i1|err|] eqn:Hacq; try discriminate.
  destruct (active i1) as [b|] eqn:Hact; [|discriminate].
  cbn [bulkIndexer_Add]. unfold after_Add.
  cbn [active set_active set_counters config timer counters].
  match goal with
  | |- context [Some ?x] =>
      match x with
      | {| bi_items := _ |} => set (b' := x)
      end
  end.
  intro H. exists i1, bytes, b, b'.
  split; [repeat split; assumption|].
  unfold after_append.
  destruct (FlushBytes (config i1) <=? bulkIndexer_Len b') eqn:Hth.
  - destruct (timer i1) as [t|] eqn:Ht; [|discriminate].
    destruct t; cbn in H; inversion H; subst i'; cbn;
      repeat split; eexists; repeat split.
  - inversion H; subst i'; cbn; repeat split.
Qed.


(** C4: when [processEvent] has appended an event, the buffer [b']
    holding it is compared with [FlushBytes].  At or above the
    threshold the timer is asked to stop; if the stop succeeds the
    active slot is cleared and one flush task with [b'] is started;
    if it fails nothing is handed off by [processEvent], [b'] stays
    active, and the callback of the timer hands it off, once.
    Below the threshold the timer is left alone and [b'] stays
    active. *)
Theorem processEvent_threshold_handoff
    (env : eventEnv) (ctx : Context) (event : APMEvent) (i i' : Indexer) :
  processEvent env ctx event i = (Returned None, i') ->
  exists i1 bytes b b',
    appended env ctx event i i1 bytes b b' /\
    if FlushBytes (config i) <=? bulkIndexer_Len b' then
      exists t : Timer,
        timer i1 = Some t /\
        timer i' = Some (snd (Timer_Stop t)) /\
        if fst (Timer_Stop t) then
          active i' = None /\
          running (g i') =
            (running (g i) ++
             [{| task_ctx := context_Background; task_buf := b' |}])%list
        else
          active i' = Some b' /\
          running (g i') = running (g i) /\
          exists i'',
            flushActive i' = Some i'' /\
            active i'' = None /\
            running (g i'') =
              (running (g i) ++
               [{| task_ctx := context_Background; task_buf := b' |}])%list
    else
      timer i' = timer i1 /\
      active i' = Some b' /\
      running (g i') = running (g i).
Proof.
  intro H.
  destruct (processEvent_nil_inv _ _ _ _ _ H)
    as (i1 & bytes & b & b' & Happ & Hafter).
  exists i1, bytes, b, b'. split; [exact Happ|].
  destruct Happ as (_ & Hacq & _ & _).
  destruct (acquire_frame _ _ _ _ Hacq) as (Hg & Hcfg & _).
  destruct Hafter as (_ & _ & _ & _ & _ & Hcase).
  rewrite Hcfg in Hcase.
  destruct (FlushBytes (config i) <=? bulkIndexer_Len b').
  - destruct Hcase as (t & Ht & Ht' & Hcase). exists t.
    split; [exact Ht|]. split; [exact Ht'|].
    destruct (fst (Timer_Stop t)).
    + destruct Hcase as [Ha Hg']. split; [exact Ha|].
      rewrite Hg', Hg. reflexivity.
    + destruct Hcase as [Ha Hg']. split; [exact Ha|].
      split; [now rewrite Hg', Hg|].
      unfold flushActive, flushActiveLocked. rewrite Ha.
      eexists. split; [reflexivity|]. cbn. rewrite Hg', Hg. split; reflexivity.
  - destruct Hcase as (Ht & Ha & Hg'). repeat split; try assumption.
    now rewrite Hg', Hg.
Qed.

(** C8: when [processEvent] has appended an event, taking its reader
    from a pool whose readers were reset by [Read], the buffer that
    holds the event, which is the active buffer or the buffer of a
    flush task just started, ends with an item whose target is
    [Type-Dataset-Namespace] of the event and whose action is
    [create]. *)
Theorem processEvent_item_target_and_action
    (env : eventEnv) (ctx : Context) (event : APMEvent) (i i' : Indexer) :
  pooled_reset env ->
  processEvent env ctx event i = (Returned None, i') ->
  exists (b' : bulkIndexer) (items : list BulkIndexerItem) (item : BulkIndexerItem),
    (active i' = Some b' \/
     In {| task_ctx := context_Background; task_buf := b' |} (running (g i'))) /\
    bi_items b' = (items ++ [item])%list /\
    Index item =
      (ds_Type (ev_DataStream event) ++ "-" ++
       ds_Dataset (ev_DataStream event) ++ "-" ++
       ds_Namespace (ev_DataStream event))%string /\
    Action item = "create" /\
    Action item <> "index".
Proof.
  intros Hpool H.
  destruct (processEvent_nil_inv _ _ _ _ _ H)
    as (i1 & bytes & b & b' & (_ & _ & _ & Hadd) & Hafter).
  exists b', (bi_items b), (item_of env event bytes).
  split.
  - destruct Hafter as (_ & _ & _ & _ & _ & Hcase).
    destruct (FlushBytes (config i1) <=? bulkIndexer_Len b').
    + destruct Hcase as (t & _ & _ & Hcase).
      destruct (fst (Timer_Stop t)).
      * right. destruct Hcase as [_ Hg]. rewrite Hg. cbn.
        apply in_or_app. right. left. reflexivity.
      * left. apply Hcase.
    + left. apply Hcase.
  - split.
    + cbn in Hadd. inversion Hadd. reflexivity.
    + split; [exact (item_of_Index env event bytes Hpool)|].
      split; [reflexivity | discriminate].
Qed.


(** C6: [ProcessBatch] on an indexer whose closing flag is set
    returns [ErrClosed] and leaves the indexer as it is, for every
    batch and context; and [Close] always leaves the flag set, so
    that every [ProcessBatch] after a [Close] returns [ErrClosed]. *)
Theorem ProcessBatch_after_closing_returns_ErrClosed :
  (forall (env : nat -> eventEnv) (ctx : Context) (batch : Batch) (i : Indexer),
      closing i = true ->
      ProcessBatch env ctx batch i = (Returned (Some ErrClosed), i)) /\
  (forall (store : bool -> bulkIndexer -> error + BulkIndexerResponse)
          (sched : list nat) (ctx0 : Context) (i : Indexer)
          (env : nat -> eventEnv) (ctx : Context) (batch : Batch),
      let i' := snd (Close store sched ctx0 i) in
      ProcessBatch env ctx batch i' = (Returned (Some ErrClosed), i')).
Proof.
  assert (A : forall env ctx batch i, closing i = true ->
              ProcessBatch env ctx batch i = (Returned (Some ErrClosed), i)).
  { intros env ctx batch i Hc. unfold modelindexer.ProcessBatch. now rewrite Hc. }
  split; [exact A|].
  intros store sched ctx0 i env ctx batch i'.
  apply A. apply Close_sets_closing.
Qed.

End EventProperties.

(** Indexers for the examples: a new one with a threshold of one
    byte, and one with the default threshold that holds one event. *)
Definition indexer_fallback : Indexer :=
  {| counters := counters_zero; config := config_small;
     available := make_chan 0; g := Group_zero; closing := false;
     closed := false; active := None; timer := None |}.

Definition indexer_new : Indexer :=
  match New config_small with
  | Some i => i
  | None => indexer_fallback
  end.

Definition config_default : Config :=
  {| MaxRequests := 0; FlushBytes := 0; FlushInterval := 0 |}.


Lemma processEvent_threshold_handoff_witness :
  exists i1 bytes b b',
    appended encode_doc meta_line env_fresh context_Background event_log
      indexer_new i1 bytes b b'.
Proof.
  destruct (processEvent_threshold_handoff encode_doc meta_line env_fresh
              context_Background event_log indexer_new
              (snd (processEvent encode_doc meta_line env_fresh
                      context_Background event_log indexer_new)))
    as (i1 & bytes & b & b' & Happ & _).
  - reflexivity.
  - exists i1, bytes, b, b'. exact Happ.
Defined.

Lemma processEvent_item_target_and_action_witness :
  exists (b' : bulkIndexer) (items : list BulkIndexerItem) (item : BulkIndexerItem),
    bi_items b' = (items ++ [item])%list /\
    Index item = "logs-firehose-default" /\
    Action item = "create".
Proof.
  destruct (processEvent_item_target_and_action encode_doc meta_line env_fresh
              context_Background event_log indexer_new
              (snd (processEvent encode_doc meta_line env_fresh
                      context_Background event_log indexer_new)))
    as (b' & items & item & _ & Hitems & Hindex & Haction & _).
  - exact I.
  - reflexivity.
  - exists b', items, item. repeat split; assumption.
Defined.


Lemma ProcessBatch_after_closing_returns_ErrClosed_witness :
  ProcessBatch encode_doc meta_line (fun _ => env_fresh) context_Background
    [event_log] (snd (Close store_failing [] context_Background indexer_new)) =
  (Returned (Some ErrClosed),
   snd (Close store_failing [] context_Background indexer_new)).
Proof.
  apply (proj1 (ProcessBatch_after_closing_returns_ErrClosed encode_doc meta_line)).
  reflexivity.
Defined.

(** *** The counters under interleaving *)

(** The entries of a response, and those that the scan of [flush]
    does not count as failed: the items that the store reports as
    written. *)
Definition entries (resp : BulkIndexerResponse) : nat :=
  List.length (List.concat (Items resp)).

(** The store reports an item as written: no error type, and a status
    of at most 201. *)
Definition reported_written (info : BulkIndexerResponseItem) : bool :=
  String.eqb (err_Type (Error info)) "" && (Status info <=? 201).

Definition ok_entries (resp : BulkIndexerResponse) : nat :=
  List.length (filter reported_written (map snd (List.concat (Items resp)))).

(** A [flush] that has added to [eventsFailed] and has its deferred
    statement still to run: the items of its buffer, what it has added
    to [eventsFailed], and the items that the store reported as
    written (none when the request failed). *)
Record pending_flush : Type := {
  pf_items : Z;
  pf_failed : Z;
  pf_ok : Z
}.

(** The counters are updated by separate atomic additions:
    [processEvent] adds to [eventsAdded] and then to [eventsActive];
    [flush] adds to [eventsFailed] and then, in its deferred
    statement, to [eventsActive].  Other calls run between the two.
    A state of the counters keeps, besides the counters, the number
    of items that the store has reported as written in the flushes
    that have ended, the number of calls of [processEvent] that are
    between their two additions, and the calls of [flush] that have
    their deferred statement still to run. *)
Record cstate : Type := {
  cnt : Counters;
  succeeded : Z;
  in_processEvent : nat;
  in_flush : list pending_flush
}.

Definition cstate_init : cstate :=
  {| cnt := counters_zero; succeeded := 0; in_processEvent := 0; in_flush := [] |}.

Inductive action : Type :=
| AddAdded                                         (* processEvent: the first addition *)
| AddActive                                        (* processEvent: the second addition *)
| FlushFailed (n : Z)                              (* flush: the bulk request failed *)
| FlushScanned (n : Z) (resp : BulkIndexerResponse) (* flush: the response was scanned *)
| FlushDeferred (k : nat).                         (* flush: the deferred statement *)

(** One atomic action; [None] when no call can take it.  The items
    counted as successful are read off the response of the store, not
    off what [flush] adds to its counters. *)
Definition step (a : action) (s : cstate) : option cstate :=
  match a with
  | AddAdded =>
      Some {| cnt := add_eventsAdded 1 (cnt s);
              succeeded := succeeded s;
              in_processEvent := S (in_processEvent s);
              in_flush := in_flush s |}
  | AddActive =>
      match in_processEvent s with
      | O => None
      | S m =>
          Some {| cnt := add_eventsActive 1 (cnt s);
                  succeeded := succeeded s;
                  in_processEvent := m;
                  in_flush := in_flush s |}
      end
  | FlushFailed n =>
      if n =? 0 then None
      else
        Some {| cnt := add_eventsFailed n (cnt s);
                succeeded := succeeded s;
                in_processEvent := in_processEvent s;
                in_flush :=
                  (in_flush s ++ [{| pf_items := n; pf_failed := n; pf_ok := 0 |}])%list |}
  | FlushScanned n resp =>
      if n =? 0 then None
      else
        let eventsFailed := scan_response resp in
        if 0 <? eventsFailed then
          Some {| cnt := add_eventsFailed eventsFailed (cnt s);
                  succeeded := succeeded s;
                  in_processEvent := in_processEvent s;
                  in_flush :=
                    (in_flush s ++
                     [{| pf_items := n; pf_failed := eventsFailed;
                         pf_ok := Z.of_nat (ok_entries resp) |}])%list |}
        else
          Some {| cnt := cnt s;
                  succeeded := succeeded s;
                  in_processEvent := in_processEvent s;
                  in_flush :=
                    (in_flush s ++
                     [{| pf_items := n; pf_failed := 0;
                         pf_ok := Z.of_nat (ok_entries resp) |}])%list |}
  | FlushDeferred k =>
      match nth_error (in_flush s) k with
      | Some pf =>
          Some {| cnt := flush_deferred (pf_items pf) (cnt s);
                  succeeded := succeeded s + pf_ok pf;
                  in_processEvent := in_processEvent s;
                  in_flush := remove_nth k (in_flush s) |}
      | None => None
      end
  end.

Fixpoint run (l : list action) (s : cstate) : option cstate :=
  match l with
  | [] => Some s
  | a :: l' =>
      match step a s with
      | Some s' => run l' s'
      | None => None
      end
  end.

(** No call is between its two additions. *)
Definition quiescent (s : cstate) : Prop :=
  in_processEvent s = O /\ in_flush s = [].

(** The store answers a bulk request of [n] items with one entry for
    each item, [n] being the [int64] that [flush] converts the number
    of items to. *)
Definition one_entry_per_item (a : action) : Prop :=
  match a with
  | FlushScanned n resp => Z.of_nat (entries resp) = n /\ in_int64 n
  | _ => True
  end.

Fixpoint credited (l : list pending_flush) : Z :=
  match l with
  | [] => 0
  | pf :: l' => pf_failed pf + credited l'
  end.

(** Every item of a flush under way was reported as failed or as
    written. *)
Definition accounted (pf : pending_flush) : Prop :=
  pf_failed pf + pf_ok pf = pf_items pf.

(** The equation that holds in every state. *)
Definition balanced (s : cstate) : Prop :=
  eventsAdded (cnt s) =
  wrap64 (eventsActive (cnt s) + succeeded s + eventsFailed (cnt s)
          + Z.of_nat (in_processEvent s) - credited (in_flush s)) /\
  Forall accounted (in_flush s).

Lemma credited_app (l1 l2 : list pending_flush) :
  credited (l1 ++ l2) = credited l1 + credited l2.
Proof. induction l1 as [|p l1 IH]; cbn; [reflexivity | rewrite IH; lia]. Qed.

Lemma credited_remove_nth (l : list pending_flush) :
  forall (k : nat) (pf : pending_flush),
    nth_error l k = Some pf -> credited (remove_nth k l) = credited l - pf_failed pf.
Proof.
  induction l as [|p l IH]; intros [|k] pf H; cbn in *; try discriminate.
  - inversion H. subst. lia.
  - rewrite (IH _ _ H). lia.
Qed.

Lemma accounted_remove_nth (l : list pending_flush) :
  forall (k : nat) (pf : pending_flush),
    Forall accounted l -> nth_error l k = Some pf ->
    accounted pf /\ Forall accounted (remove_nth k l).
Proof.
  induction l as [|p l IH]; intros [|k] pf HF H; cbn in *; try discriminate;
    inversion HF; subst.
  - inversion H; subst. split; assumption.
  - match goal with HF' : Forall accounted l |- _ =>
      destruct (IH _ _ HF' H) as [Hpf Hrest]
    end.
    split; [exact Hpf | constructor; assumption].
Qed.

Lemma reported_written_iff_not_failed (info : BulkIndexerResponseItem) :
  reported_written info = negb (info_failed info).
Proof.
  unfold reported_written, info_failed.
  destruct (String.eqb (err_Type (Error info)) ""); cbn; [|reflexivity].
  destruct (Z.leb_spec (Status info) 201), (Z.ltb_spec 201 (Status info));
    try reflexivity; lia.
Qed.

Lemma entries_split (resp : BulkIndexerResponse) :
  (failed_entries resp + ok_entries resp = entries resp)%nat.
Proof.
  unfold failed_entries, ok_entries, entries.
  rewrite <- (length_map snd (List.concat (Items resp))).
  induction (map snd (List.concat (Items resp))) as [|info l IH]; cbn [filter List.length];
    [reflexivity|].
  rewrite (reported_written_iff_not_failed info).
  destruct (info_failed info); cbn [negb List.length]; lia.
Qed.

Lemma scan_response_one_entry_per_item (n : Z) (resp : BulkIndexerResponse) :
  one_entry_per_item (FlushScanned n resp) ->
  scan_response resp = Z.of_nat (failed_entries resp) /\
  Z.of_nat (failed_entries resp) + Z.of_nat (ok_entries resp) = n.
Proof.
  intros [He Hn]. pose proof (entries_split resp) as Hs.
  split; [|lia].
  rewrite scan_response_spec. apply wrap64_id.
  unfold in_int64 in *. lia.
Qed.

Lemma wrap64_shift (a b x y : Z) :
  a = wrap64 x -> y = x + b -> wrap64 (a + b) = wrap64 y.
Proof. intros -> ->. apply wrap64_add_l. Qed.

Lemma wrap64_inside (a d r y : Z) :
  y = a + d + r -> wrap64 (wrap64 (a + d) + r) = wrap64 y.
Proof. intros ->. apply wrap64_add_l. Qed.

Lemma step_balanced (a : action) (s s' : cstate) :
  one_entry_per_item a -> step a s = Some s' -> balanced s -> balanced s'.
Proof.
  unfold balanced. destruct a; cbn [step one_entry_per_item]; intro Hwf.
  - intros H [B A]. inversion H; subst s'; clear H.
    cbn [cnt eventsAdded eventsActive eventsFailed add_eventsAdded succeeded
           in_processEvent in_flush]. unfold atomic_AddInt64.
    split; [|exact A]. apply (wrap64_shift _ _ _ _ B). lia.
  - destruct (in_processEvent s) as [|m] eqn:E; [discriminate|].
    intros H [B A]. inversion H; subst s'; clear H.
    cbn [cnt eventsAdded eventsActive eventsFailed add_eventsActive succeeded
           in_processEvent in_flush]. unfold atomic_AddInt64.
    split; [|exact A]. rewrite B. symmetry.
    replace (wrap64 (eventsActive (cnt s) + 1) + succeeded s + eventsFailed (cnt s)
             + Z.of_nat m - credited (in_flush s))
      with (wrap64 (eventsActive (cnt s) + 1)
            + (succeeded s + eventsFailed (cnt s) + Z.of_nat m - credited (in_flush s)))
      by lia.
    apply wrap64_inside. lia.
  - destruct (n =? 0); [discriminate|].
    intros H [B A]. inversion H; subst s'; clear H.
    cbn [cnt eventsAdded eventsActive eventsFailed add_eventsFailed succeeded
           in_processEvent in_flush]. unfold atomic_AddInt64.
    split.
    + rewrite B, credited_app. cbn [credited pf_failed]. symmetry.
      replace (eventsActive (cnt s) + succeeded s + wrap64 (eventsFailed (cnt s) + n)
               + Z.of_nat (in_processEvent s) - (credited (in_flush s) + (n + 0)))
        with (wrap64 (eventsFailed (cnt s) + n)
              + (eventsActive (cnt s) + succeeded s
                 + Z.of_nat (in_processEvent s) - credited (in_flush s) - n))
        by lia.
      apply wrap64_inside. lia.
    + apply Forall_app. split; [exact A|]. constructor; [|constructor].
      unfold accounted. cbn. lia.
  - destruct (n =? 0); [discriminate|].
    destruct (scan_response_one_entry_per_item n resp Hwf) as [Hscan Hsum].
    destruct (0 <? scan_response resp) eqn:Hpos.
    + intros H [B A]. inversion H; subst s'; clear H.
      cbn [cnt eventsAdded eventsActive eventsFailed add_eventsFailed succeeded
             in_processEvent in_flush]. unfold atomic_AddInt64.
      split.
      * rewrite B, credited_app. cbn [credited pf_failed]. symmetry.
        replace (eventsActive (cnt s) + succeeded s
                 + wrap64 (eventsFailed (cnt s) + scan_response resp)
                 + Z.of_nat (in_processEvent s)
                 - (credited (in_flush s) + (scan_response resp + 0)))
          with (wrap64 (eventsFailed (cnt s) + scan_response resp)
                + (eventsActive (cnt s) + succeeded s
                   + Z.of_nat (in_processEvent s) - credited (in_flush s)
                   - scan_response resp))
          by lia.
        apply wrap64_inside. lia.
      * apply Forall_app. split; [exact A|]. constructor; [|constructor].
        unfold accounted. cbn. lia.
    + intros H [B A]. inversion H; subst s'; clear H.
      cbn [cnt succeeded in_processEvent in_flush].
      split.
      * rewrite B, credited_app. cbn [credited pf_failed]. f_equal. lia.
      * apply Forall_app. split; [exact A|]. constructor; [|constructor].
        unfold accounted. cbn. apply Z.ltb_ge in Hpos. lia.
  - destruct (nth_error (in_flush s) k) as [pf|] eqn:E; [|discriminate].
    intros H [B A]. inversion H; subst s'; clear H.
    cbn [cnt eventsAdded eventsActive eventsFailed flush_deferred add_eventsActive
           succeeded in_processEvent in_flush]. unfold atomic_AddInt64.
    destruct (accounted_remove_nth _ _ _ A E) as [Hpf Hrest].
    split; [|exact Hrest].
    unfold accounted in Hpf.
    rewrite B, (credited_remove_nth _ _ _ E), wrap64_add_r. symmetry.
    replace (wrap64 (eventsActive (cnt s) + - pf_items pf) + (succeeded s + pf_ok pf)
             + eventsFailed (cnt s) + Z.of_nat (in_processEvent s)
             - (credited (in_flush s) - pf_failed pf))
      with (wrap64 (eventsActive (cnt s) + - pf_items pf)
            + (succeeded s + pf_ok pf + eventsFailed (cnt s)
               + Z.of_nat (in_processEvent s) - (credited (in_flush s) - pf_failed pf)))
      by lia.
    apply wrap64_inside. lia.
Qed.

Lemma run_balanced (l : list action) :
  forall s s' : cstate,
    Forall one_entry_per_item l -> run l s = Some s' -> balanced s -> balanced s'.
Proof.
  induction l as [|a l IH]; intros s s' Hwf H B; cbn in H.
  - inversion H. now subst.
  - destruct (step a s) as [s1|] eqn:E; [|discriminate].
    inversion Hwf as [|? ? Ha Hl]; subst.
    exact (IH _ _ Hl H (step_balanced _ _ _ Ha E B)).
Qed.

(** The two additions of [processEvent] are the actions [AddAdded]
    and [AddActive], and the additions of [flush] are [FlushFailed]
    or [FlushScanned] followed by [FlushDeferred]. *)
Lemma processEvent_additions_as_actions (s : cstate) :
  exists s',
    run [AddAdded; AddActive] s = Some s' /\
    cnt s' = add_eventsActive 1 (add_eventsAdded 1 (cnt s)) /\
    in_processEvent s' = in_processEvent s /\ in_flush s' = in_flush s.
Proof. eexists. cbn. repeat split. Qed.

Lemma flush_additions_as_actions
    (store : bulkIndexer -> error + BulkIndexerResponse)
    (b : bulkIndexer) (s : cstate) :
  bulkIndexer_Items b <> 0 ->
  in_flush s = [] ->
  exists s',
    run [match store b with
         | inl _ => FlushFailed (bulkIndexer_Items b)
         | inr resp => FlushScanned (bulkIndexer_Items b) resp
         end; FlushDeferred 0] s = Some s' /\
    cnt s' = snd (fst (flush store b (cnt s))) /\
    in_processEvent s' = in_processEvent s /\ in_flush s' = [].
Proof.
  intros Hn Hq. apply Z.eqb_neq in Hn. unfold flush. rewrite Hn.
  destruct (store b) as [err|resp]; cbn [run step]; rewrite Hn, Hq.
  - cbn. eexists. repeat split.
  - destruct (0 <? scan_response resp); cbn; eexists; repeat split.
Qed.

(** C2, as stated, fails: after the first addition of [processEvent]
    and before the second, [added] is 1 while [active], the
    successful items and [failed] are 0; and after the addition of a
    failed [flush] to [failed], before its deferred statement, [added]
    is 1 while [active + failed] is 2. *)
Lemma counters_unbalanced_between_additions :
  (exists s,
      run [AddAdded] cstate_init = Some s /\
      eventsAdded (cnt s) = 1 /\
      eventsActive (cnt s) + succeeded s + eventsFailed (cnt s) = 0 /\
      eventsAdded (cnt s) <> eventsActive (cnt s) + succeeded s + eventsFailed (cnt s)) /\
  (exists s,
      run [AddAdded; AddActive; FlushFailed 1] cstate_init = Some s /\
      eventsAdded (cnt s) = 1 /\
      eventsActive (cnt s) + succeeded s + eventsFailed (cnt s) = 2 /\
      eventsAdded (cnt s) <> eventsActive (cnt s) + succeeded s + eventsFailed (cnt s)).
Proof.
  split; eexists; (split; [vm_compute; reflexivity|]);
    vm_compute; repeat split; discriminate.
Qed.

(** A response with more entries than the request had items: one
    item, two entries reported as failed. *)
Definition response_two_failures : BulkIndexerResponse :=
  {| Items := [entry 409; entry 409] |}.

(** When the store answers with another number of entries than the
    request had items, the equation fails also between the calls. *)
Lemma counters_unbalanced_on_malformed_response :
  exists s,
    run [AddAdded; AddActive; FlushScanned 1 response_two_failures; FlushDeferred 0]
      cstate_init = Some s /\
    quiescent s /\
    eventsAdded (cnt s) = 1 /\
    eventsActive (cnt s) = 0 /\ succeeded s = 0 /\ eventsFailed (cnt s) = 2.
Proof.
  eexists. split; [vm_compute; reflexivity|].
  split; [split; reflexivity|]. vm_compute. repeat split.
Qed.

(** C2, amended: in every state that a run of atomic additions
    reaches from a new indexer, the store answering every bulk request
    with one entry for each item, and in which no [processEvent] is
    between its two additions and no [flush] is between its addition
    to [failed] and its deferred addition to [active], the equation
    [added == active + successful + failed] holds in [int64]
    arithmetic, [successful] being the number of entries that the
    responses of the ended flushes report as written; it holds exactly
    when the sum is inside [int64]. *)
Theorem counters_balanced_when_quiescent (l : list action) (s : cstate) :
  Forall one_entry_per_item l ->
  run l cstate_init = Some s ->
  quiescent s ->
  eventsAdded (cnt s) =
    wrap64 (eventsActive (cnt s) + succeeded s + eventsFailed (cnt s)) /\
  (in_int64 (eventsActive (cnt s) + succeeded s + eventsFailed (cnt s)) ->
   eventsAdded (cnt s) = eventsActive (cnt s) + succeeded s + eventsFailed (cnt s)).
Proof.
  intros Hwf Hrun [Hpe Hfl].
  assert (B : balanced s).
  { apply (run_balanced l cstate_init s Hwf Hrun). split; [reflexivity | constructor]. }
  destruct B as [B _]. rewrite Hpe, Hfl in B. cbn in B.
  assert (E : eventsAdded (cnt s) =
              wrap64 (eventsActive (cnt s) + succeeded s + eventsFailed (cnt s))).
  { rewrite B. f_equal. lia. }
  split; [exact E|].
  intro Hin. rewrite E. now apply wrap64_id.
Qed.

(** The per-item failure scenario: ten events, one flush whose
    response reports one conflict. *)
Definition run_ten_one_conflict : list action :=
  (List.concat (repeat [AddAdded; AddActive] 10)
   ++ [FlushScanned 10 response_one_conflict; FlushDeferred 0])%list.

Lemma counters_balanced_when_quiescent_witness :
  exists s,
    run run_ten_one_conflict cstate_init = Some s /\
    cnt s = {| eventsAdded := 10; eventsActive := 0; eventsFailed := 1 |} /\
    succeeded s = 9 /\
    eventsAdded (cnt s) = eventsActive (cnt s) + succeeded s + eventsFailed (cnt s).
Proof.
  eexists. split; [vm_compute; reflexivity|].
  split; [reflexivity|]. split; [reflexivity|].
  refine (proj2 (counters_balanced_when_quiescent run_ten_one_conflict _ _ _ _) _).
  - apply Forall_forall. intros a Hin.
    unfold run_ten_one_conflict in Hin. cbn [repeat List.concat app In] in Hin.
    repeat (destruct Hin as [<-|Hin];
            [first [ exact I
                   | split; [reflexivity
                            | unfold in_int64; vm_compute;
                              split; [discriminate | reflexivity]] ]|]).
    destruct Hin.
  - vm_compute. reflexivity.
  - split; reflexivity.
  - unfold in_int64. vm_compute. split; [discriminate | reflexivity].
Defined.

(** *** The buffers and the timer in every run *)

(** The items of the buffers of a list of flush tasks. *)
Fixpoint sum_counts (l : list flushTask) : Z :=
  match l with
  | [] => 0
  | t :: l' => bi_count (task_buf t) + sum_counts l'
  end.

(** The items of the active buffer, and whether there is one. *)
Definition active_count (i : Indexer) : Z :=
  match active i with Some b => bi_count b | None => 0 end.

Definition active_slot (i : Indexer) : Z :=
  match active i with Some _ => 1 | None => 0 end.

(** What every run keeps, [p] telling whether the timer has fired
    and its callback has not run yet: the capacity of the idle pool
    is [MaxRequests]; the idle, the flushing and the active buffers
    are [MaxRequests] together; the idle buffers are empty;
    [eventsActive] counts the items of the active and of the flushing
    buffers; an active buffer has its timer armed or fired with the
    callback to come, and without an active buffer the timer is not
    armed; [eventsAdded] is inside [int64]. *)
Record inv (i : Indexer) (p : bool) : Prop := {
  inv_cap : chan_cap (available i) = MaxRequests (config i);
  inv_buffers :
    Z.of_nat (List.length (chan_queue (available i)))
    + Z.of_nat (List.length (running (g i))) + active_slot i
    = chan_cap (available i);
  inv_idle : Forall (fun b => b = newBulkIndexer) (chan_queue (available i));
  inv_active :
    eventsActive (counters i) = wrap64 (active_count i + sum_counts (running (g i)));
  inv_added : in_int64 (eventsAdded (counters i));
  inv_timer :
    match active i with
    | Some _ =>
        (p = false /\ exists d, timer i = Some (TimerArmed d)) \/
        (p = true /\ timer i = Some TimerFired)
    | None => p = false /\ forall d, timer i <> Some (TimerArmed d)
    end
}.

(** An active buffer whose timer is armed is below the threshold. *)
Definition below_threshold (i : Indexer) (p : bool) : Prop :=
  forall b, active i = Some b -> p = false ->
            bulkIndexer_Len b < FlushBytes (config i).

Lemma sum_counts_app (l1 l2 : list flushTask) :
  sum_counts (l1 ++ l2) = sum_counts l1 + sum_counts l2.
Proof. induction l1 as [|t l1 IH]; cbn; [reflexivity | rewrite IH; lia]. Qed.

Lemma sum_counts_remove_nth (l : list flushTask) :
  forall (k : nat) (t : flushTask),
    nth_error l k = Some t ->
    sum_counts (remove_nth k l) = sum_counts l - bi_count (task_buf t).
Proof.
  induction l as [|x l IH]; intros [|k] t H; cbn in *; try discriminate.
  - inversion H. lia.
  - rewrite (IH _ _ H). lia.
Qed.

Lemma inv_New (cfg : Config) (i : Indexer) :
  New cfg = Some i -> inv i false /\ below_threshold i false.
Proof.
  pose proof (normalize_MaxRequests_pos cfg) as Hpos.
  unfold New. rewrite fill_available_spec by (cbn; lia).
  intro H. inversion H; subst i; clear H. split.
  - constructor; cbn.
    + reflexivity.
    + rewrite repeat_length. lia.
    + apply Forall_forall. intros b Hb. exact (repeat_spec _ _ _ Hb).
    + reflexivity.
    + unfold in_int64. lia.
    + split; [reflexivity | discriminate].
  - intros b Hb. discriminate.
Qed.

Section Runs.

Variable AddRaw : Context -> APMEvent -> error + string.
Variable writeMeta : string -> string -> string.

Local Abbreviation processEvent := (processEvent AddRaw writeMeta).
Local Abbreviation ProcessBatch := (ProcessBatch AddRaw writeMeta).
Local Abbreviation ProcessBatch_loop := (ProcessBatch_loop AddRaw writeMeta).

Lemma acquire_inv (env : eventEnv) (ctx : Context) (i i1 : Indexer) (p : bool) :
  inv i p ->
  acquire env ctx i = AcqOk i1 ->
  inv i1 p /\ counters i1 = counters i /\ config i1 = config i /\
  (exists b, active i1 = Some b /\
             (active i = None -> b = newBulkIndexer) /\
             (active i <> None -> i1 = i)).
Proof.
  intros [Hcap Hbuf Hidle Hact Hadded Htimer] Hacq.
  destruct (acquire_frame _ _ _ _ Hacq)
    as (Hg & Hcfg & Hcnt & _ & _ & Hsame & Hfresh).
  destruct (active i) as [b|] eqn:Ha.
  - assert (i1 = i) by (apply Hsame; discriminate). subst i1.
    split; [constructor; rewrite ?Ha; assumption|].
    repeat split. exists b. repeat split; congruence.
  - destruct (Hfresh eq_refl) as (Ht1 & b & Hrecv & Ha1).
    unfold chan_recv in Hrecv.
    destruct (chan_queue (available i)) as [|b0 rest] eqn:Hq; [discriminate|].
    inversion Hrecv; subst b0; clear Hrecv.
    match goal with H : _ = available i1 |- _ => rename H into Hav end.
    inversion Hidle as [|? ? Hb Hrest]; subst.
    split.
    + constructor.
      * rewrite <- Hav, Hcfg. exact Hcap.
      * rewrite <- Hav, Hg. unfold active_slot in *. rewrite Ha1. rewrite Ha in Hbuf.
        cbn [chan_queue chan_cap List.length] in *. lia.
      * rewrite <- Hav. exact Hrest.
      * unfold active_count in *. rewrite Ha in Hact.
        rewrite Hcnt, Hg, Hact, Ha1. reflexivity.
      * rewrite Hcnt. exact Hadded.
      * rewrite Ha1. left. destruct Htimer as [Hp _]. split; [exact Hp | eauto].
    + repeat split; try assumption. exists newBulkIndexer.
      repeat split; congruence.
Qed.

Lemma after_Add_inv (i1 : Indexer) (p : bool) (b b' : bulkIndexer) :
  inv i1 p ->
  active i1 = Some b ->
  bi_count b' = bi_count b + 1 ->
  exists i',
    after_Add (set_active (Some b') i1) = (Returned None, i') /\
    inv i' p /\ below_threshold i' p /\
    config i' = config i1 /\
    counters i' = add_eventsActive 1 (add_eventsAdded 1 (counters i1)).
Proof.
  intros [Hcap Hbuf Hidle Hact Hadded Htimer] Ha Hcount.
  rewrite Ha in Htimer. unfold active_slot, active_count in *. rewrite Ha in *.
  assert (Hea : wrap64 (eventsActive (counters i1) + 1) =
                wrap64 (bi_count b' + sum_counts (running (g i1)))).
  { rewrite Hact, wrap64_add_l. f_equal. lia. }
  unfold after_Add.
  cbn [active set_active set_counters config timer counters].
  destruct (FlushBytes (config i1) <=? bulkIndexer_Len b') eqn:Hth.
  - destruct Htimer as [[Hp [d Ht]]|[Hp Ht]]; rewrite Ht; cbn.
    + eexists. split; [reflexivity|].
      split; [|split; [intros ? Hn; discriminate | split; reflexivity]].
      constructor; cbn; unfold active_slot, active_count; cbn.
      * assumption.
      * rewrite length_app. cbn [List.length]. lia.
      * assumption.
      * unfold atomic_AddInt64. rewrite Hea, sum_counts_app. cbn. f_equal. lia.
      * apply wrap64_range.
      * split; [assumption | discriminate].
    + eexists. split; [reflexivity|].
      split; [|split; [intros ? _ Hn; congruence | split; reflexivity]].
      constructor; cbn; unfold active_slot, active_count; cbn; try assumption.
      * apply wrap64_range.
      * right. split; [assumption | reflexivity].
  - eexists. split; [reflexivity|].
    split; [|split; [|split; reflexivity]].
    + constructor; cbn; unfold active_slot, active_count; cbn; try assumption.
      apply wrap64_range.
    + intros b0 Hb0 _. cbn in Hb0 |- *. inversion Hb0; subst b0.
      apply Z.leb_gt. exact Hth.
Qed.

(** A call of [processEvent] keeps [inv]; it returns nil, or returns
    an error or blocks and leaves the indexer as it was. *)
Lemma processEvent_inv (env : eventEnv) (ctx : Context) (event : APMEvent)
    (i i' : Indexer) (p : bool) (out : outcome) :
  inv i p -> below_threshold i p ->
  processEvent env ctx event i = (out, i') ->
  inv i' p /\ below_threshold i' p /\ config i' = config i /\
  ((out = Returned None /\
    counters i' = add_eventsActive 1 (add_eventsAdded 1 (counters i))) \/
   (i' = i /\ out <> Returned None /\ out <> Panicked)).
Proof.
  intros Hinv Hthr. unfold modelindexer.processEvent.
  assert (Hsame : forall o, o <> Returned None -> o <> Panicked ->
            (o, i) = (out, i') ->
            inv i' p /\ below_threshold i' p /\ config i' = config i /\
            ((out = Returned None /\
              counters i' = add_eventsActive 1 (add_eventsAdded 1 (counters i))) \/
             (i' = i /\ out <> Returned None /\ out <> Panicked))).
  { intros o Ho1 Ho2 H. inversion H; subst.
    split; [assumption|]. split; [assumption|]. split; [reflexivity|].
    right. split; [reflexivity|]. split; assumption. }
  destruct (AddRaw ctx event) as [err|bytes]; [apply Hsame; discriminate|].
  destruct (acquire env ctx i) as [i1|err|] eqn:Hacq;
    [|apply Hsame; discriminate|apply Hsame; discriminate].
  destruct (acquire_inv _ _ _ _ _ Hinv Hacq)
    as (Hinv1 & Hcnt & Hcfg & b & Ha1 & _).
  rewrite Ha1. cbn [bulkIndexer_Add].
  match goal with
  | |- context [set_active (Some ?x) i1] => set (b' := x)
  end.
  destruct (after_Add_inv i1 p b b' Hinv1 Ha1 eq_refl)
    as (i2 & Hafter & Hinv2 & Hthr2 & Hcfg2 & Hcnt2).
  rewrite Hafter. intro H. inversion H; subst.
  split; [assumption|]. split; [assumption|]. split; [congruence|].
  left. split; [reflexivity | congruence].
Qed.

Lemma ProcessBatch_loop_inv (env : nat -> eventEnv) (ctx : Context) (p : bool)
    (batch : Batch) :
  forall (k : nat) (i i' : Indexer) (out : outcome),
    inv i p -> below_threshold i p ->
    ProcessBatch_loop env k ctx batch i = (out, i') ->
    inv i' p /\ below_threshold i' p /\ config i' = config i /\
    out <> Panicked /\
    exists m : nat,
      (m <= List.length batch)%nat /\
      (out = Returned None -> m = List.length batch) /\
      eventsAdded (counters i') = wrap64 (eventsAdded (counters i) + Z.of_nat m) /\
      eventsFailed (counters i') = eventsFailed (counters i).
Proof.
  induction batch as [|event rest IH]; intros k i i' out Hinv Hthr; cbn [ProcessBatch_loop].
  - intro H. inversion H; subst.
    split; [assumption|]. split; [assumption|]. split; [reflexivity|].
    split; [discriminate|]. exists O. cbn.
    split; [lia|]. split; [reflexivity|]. split; [|reflexivity].
    rewrite Z.add_0_r. symmetry. apply wrap64_id. apply (inv_added _ _ Hinv).
  - destruct (modelindexer.processEvent AddRaw writeMeta (env k) ctx event i)
      as [o i1] eqn:Hpe.
    destruct (processEvent_inv _ _ _ _ _ _ _ Hinv Hthr Hpe)
      as (Hinv1 & Hthr1 & Hcfg1 & [[Ho Hcnt]|(Hi & Ho1 & Ho2)]).
    + subst o. intro H.
      destruct (IH _ _ _ _ Hinv1 Hthr1 H)
        as (Hinv' & Hthr' & Hcfg' & Hout & m & Hm & Hall & Hadd & Hfail).
      split; [assumption|]. split; [assumption|]. split; [congruence|].
      split; [assumption|]. exists (S m). cbn [List.length].
      split; [lia|]. split; [intro E; now rewrite (Hall E)|].
      rewrite Hadd, Hfail, Hcnt. cbn. unfold atomic_AddInt64.
      split; [|reflexivity]. rewrite wrap64_add_l. f_equal. lia.
    + subst i1. intro H.
      assert (E : (out, i') = (o, i)) by (destruct o as [[e|]| |]; congruence).
      inversion E; subst.
      split; [assumption|]. split; [assumption|]. split; [reflexivity|].
      split; [assumption|]. exists O. cbn [List.length].
      split; [lia|]. split; [intro E'; congruence|]. split; [|reflexivity].
      rewrite Z.add_0_r. symmetry. apply wrap64_id. apply (inv_added _ _ Hinv).
Qed.

End Runs.

Ltac conjs := repeat match goal with |- _ /\ _ => split end.

Lemma flush_counters (store : bulkIndexer -> error + BulkIndexerResponse)
    (b : bulkIndexer) (c : Counters) :
  eventsAdded (snd (fst (flush store b c))) = eventsAdded c /\
  (in_int64 (eventsActive c) ->
   eventsActive (snd (fst (flush store b c))) = wrap64 (eventsActive c - bi_count b)).
Proof.
  unfold flush, bulkIndexer_Items.
  destruct (Z.eqb_spec (bi_count b) 0) as [E|E].
  - cbn. split; [reflexivity|]. intro H. rewrite E, Z.sub_0_r.
    symmetry. now apply wrap64_id.
  - assert (H : forall c0, eventsActive (flush_deferred (bi_count b) c0) =
                           wrap64 (eventsActive c0 - bi_count b)).
    { intro c0. unfold flush_deferred, add_eventsActive, atomic_AddInt64. cbn.
      rewrite wrap64_add_r. reflexivity. }
    destruct (store b) as [err|resp]; cbn [fst snd].
    + split; [reflexivity|]. intros _. rewrite H. reflexivity.
    + destruct (0 <? scan_response resp); (split; [reflexivity|]);
        intros _; rewrite H; reflexivity.
Qed.

(** A state with the fields of [i] that [inv] reads keeps [inv]. *)
Lemma inv_fields (i j : Indexer) (p : bool) :
  available j = available i -> g j = g i -> config j = config i ->
  counters j = counters i -> active j = active i -> timer j = timer i ->
  (inv i p -> inv j p) /\ (below_threshold i p -> below_threshold j p).
Proof.
  intros Hav Hg Hcfg Hcnt Ha Ht. split.
  - intros [Hcap Hbuf Hidle Hact Hadded Htimer].
    constructor; unfold active_slot, active_count in *;
      rewrite ?Hav, ?Hg, ?Hcfg, ?Hcnt, ?Ha, ?Ht; assumption.
  - intros H b Hb Hp. rewrite Hcfg. apply H; congruence.
Qed.

(** Handing the active buffer off keeps [inv]. *)
Lemma inv_handoff (i j : Indexer) (p : bool) (b : bulkIndexer) (ctx : Context) :
  inv i p ->
  active i = Some b ->
  available j = available i -> config j = config i -> counters j = counters i ->
  active j = None ->
  g j = Group_Go {| task_ctx := ctx; task_buf := b |} (g i) ->
  (forall d, timer j <> Some (TimerArmed d)) ->
  inv j false /\ below_threshold j false.
Proof.
  intros [Hcap Hbuf Hidle Hact Hadded Htimer] Ha Hav Hcfg Hcnt Haj Hg Htj.
  split; [|intros b0 Hb0; congruence].
  constructor; unfold active_slot, active_count in *;
    rewrite ?Hav, ?Hg, ?Hcfg, ?Hcnt, ?Haj; rewrite ?Ha in *; cbn [running Group_Go];
    try assumption.
  - rewrite length_app. cbn [List.length]. lia.
  - rewrite Hact, sum_counts_app. cbn. f_equal. lia.
  - split; [reflexivity | exact Htj].
Qed.

Lemma runFlushTask_inv (store : bool -> bulkIndexer -> error + BulkIndexerResponse)
    (k : nat) (i : Indexer) (p : bool) (t : flushTask) :
  inv i p -> below_threshold i p ->
  nth_error (running (g i)) k = Some t ->
  exists i',
    runFlushTask store k i = Some i' /\
    inv i' p /\ below_threshold i' p /\
    config i' = config i /\ active i' = active i /\ timer i' = timer i /\
    closing i' = closing i /\ closed i' = closed i /\
    running (g i') = remove_nth k (running (g i)) /\
    g_err (g i') = Group_done (task_result store (closed i) t) (g i) /\
    chan_queue (available i') = (chan_queue (available i) ++ [newBulkIndexer])%list.
Proof.
  intros [Hcap Hbuf Hidle Hact Hadded Htimer] Hthr Hnth.
  unfold runFlushTask. rewrite Hnth.
  pose proof (flush_counters (store (ctx_done (task_ctx t) || closed i))
                (task_buf t) (counters i)) as [Hadd' Hact'].
  pose proof (flush_returns_flush_error (store (ctx_done (task_ctx t) || closed i))
                (task_buf t) (counters i)) as Herr.
  destruct (flush (store (ctx_done (task_ctx t) || closed i)) (task_buf t) (counters i))
    as [[err c] issued].
  cbn [fst snd] in Hadd', Hact', Herr.
  pose proof (remove_nth_length _ _ _ Hnth) as Hlen.
  assert (Hslot : 0 <= active_slot i) by (unfold active_slot; destruct (active i); lia).
  unfold chan_send.
  destruct (Z.ltb_spec (Z.of_nat (List.length (chan_queue (available i))))
              (chan_cap (available i))) as [_|Hfull]; [|lia].
  eexists. split; [reflexivity|].
  cbn [config active timer closing closed g running g_err set_g set_available
         set_counters available chan_queue].
  split.
  { constructor; unfold active_slot, active_count in *;
      cbn [config active timer g running set_g set_available set_counters available
             chan_queue chan_cap counters].
    - exact Hcap.
    - rewrite length_app. cbn [List.length]. lia.
    - apply Forall_app. split; [exact Hidle | repeat constructor].
    - rewrite Hact' by (rewrite Hact; apply wrap64_range).
      rewrite (sum_counts_remove_nth _ _ _ Hnth), Hact.
      replace (wrap64 (match active i with Some b => bi_count b | None => 0 end
                       + sum_counts (running (g i))) - bi_count (task_buf t))
        with (wrap64 (match active i with Some b => bi_count b | None => 0 end
                      + sum_counts (running (g i))) + - bi_count (task_buf t)) by lia.
      rewrite wrap64_add_l. f_equal. lia.
    - rewrite Hadd'. exact Hadded.
    - exact Htimer. }
  split; [exact Hthr|].
  conjs; try reflexivity. unfold task_result. rewrite Herr. reflexivity.
Qed.

Lemma Wait_loop_inv (store : bool -> bulkIndexer -> error + BulkIndexerResponse)
    (p : bool) (fuel : nat) :
  forall (sched : list nat) (i : Indexer),
    inv i p -> below_threshold i p ->
    (List.length (running (g i)) <= fuel)%nat ->
    exists i',
      Wait_loop store fuel sched i = (Returned (g_err (g i')), i') /\
      inv i' p /\ below_threshold i' p /\
      running (g i') = [] /\
      config i' = config i /\ active i' = active i /\ timer i' = timer i /\
      closing i' = closing i /\ closed i' = closed i /\
      (running (g i) = [] -> i' = i).
Proof.
  induction fuel as [|fuel IH]; intros sched i Hinv Hthr Hlen; cbn [Wait_loop].
  - destruct (running (g i)) as [|t0 ts] eqn:Hrun; [|cbn in Hlen; lia].
    exists i. rewrite Hrun. conjs; auto.
  - destruct (running (g i)) as [|t0 ts] eqn:Hrun.
    + exists i. rewrite Hrun. conjs; auto.
    + destruct (nth_error_mod (t0 :: ts) (hd O sched) ltac:(discriminate)) as [t Ht].
      set (k := (hd O sched mod List.length (t0 :: ts))%nat) in *.
      rewrite <- Hrun in Ht.
      destruct (runFlushTask_inv store k i p t Hinv Hthr Ht)
        as (i1 & Hrun1 & Hinv1 & Hthr1 & Hcfg & Ha & Htm & Hcl & Hcd & Hr1 & _).
      rewrite Hrun1.
      pose proof (remove_nth_length _ _ _ Ht) as Hrm.
      destruct (IH (tl sched) i1 Hinv1 Hthr1) as
        (i' & HW & Hinv' & Hthr' & Hr' & Hcfg' & Ha' & Htm' & Hcl' & Hcd' & _).
      * rewrite Hr1, Hrun. rewrite Hrun in Hrm. cbn [List.length] in *. lia.
      * exists i'. rewrite HW.
        conjs; try assumption; try congruence.
Qed.

Lemma Close_inv (store : bool -> bulkIndexer -> error + BulkIndexerResponse)
    (sched : list nat) (ctx : Context) (i : Indexer) (p : bool) :
  inv i p -> below_threshold i p ->
  exists i',
    Close store sched ctx i = (Returned (g_err (g i')), i') /\
    inv i' p /\ below_threshold i' p /\
    running (g i') = [] /\ closing i' = true /\ config i' = config i /\
    active i' = (if closing i then active i else if p then active i else None) /\
    (closing i = true -> running (g i) = [] -> i' = i).
Proof.
  intros Hinv Hthr. unfold Close.
  destruct (closing i) eqn:Hclosing.
  - unfold Group_Wait.
    destruct (Wait_loop_inv store p _ sched i Hinv Hthr (le_n _))
      as (i' & HW & Hinv' & Hthr' & Hr & Hcfg & Ha & _ & Hcl & _ & Hsame).
    exists i'. rewrite HW. conjs; try assumption; try congruence; auto.
  - set (i0 := set_closing true i).
    assert (Hstart :
      exists i1,
        match active i0 with
        | Some _ =>
            match timer i0 with
            | Some t =>
                let (stopped, t') := Timer_Stop t in
                if stopped then flushActiveLocked ctx (set_timer (Some t') i0)
                else Some (set_timer (Some t') i0)
            | None => None
            end
        | None => Some i0
        end = Some i1 /\
        inv i1 p /\ below_threshold i1 p /\ config i1 = config i /\
        closing i1 = true /\
        active i1 = (if p then active i else None)).
    { cbn [active timer set_closing i0].
      pose proof (inv_timer _ _ Hinv) as Htimer.
      destruct (active i) as [b|] eqn:Ha.
      - destruct Htimer as [[Hp [d Ht]]|[Hp Ht]]; rewrite Ht; cbn [Timer_Stop].
        + unfold flushActiveLocked. cbn [active set_timer].
          change (active i0) with (active i). rewrite Ha.
          eexists. split; [reflexivity|].
          destruct (inv_handoff i
                      (set_g (Group_Go {| task_ctx := ctx; task_buf := b |}
                                (g (set_active None (set_timer (Some TimerStopped) i0))))
                         (set_active None (set_timer (Some TimerStopped) i0)))
                      p b ctx Hinv Ha) as [Hinv1 Hthr1];
            try reflexivity; try (intro; discriminate).
          subst p. split; [exact Hinv1|]. split; [exact Hthr1|].
          conjs; reflexivity.
        + eexists. split; [reflexivity|].
          destruct (inv_fields i (set_timer (Some TimerFired) i0) p)
            as [Hi Ht']; try reflexivity; try (cbn; congruence).
          split; [exact (Hi Hinv)|]. split; [exact (Ht' Hthr)|].
          subst p. conjs; try reflexivity. cbn. exact Ha.
      - exists i0. split; [reflexivity|].
        destruct (inv_fields i i0 p) as [Hi Ht']; try reflexivity.
        split; [exact (Hi Hinv)|]. split; [exact (Ht' Hthr)|].
        conjs; try reflexivity. cbn. rewrite Ha. destruct p; reflexivity. }
    destruct Hstart as (i1 & Hi1 & Hinv1 & Hthr1 & Hcfg1 & Hcl1 & Ha1).
    fold i0. rewrite Hi1.
    set (i2 := if ctx_done ctx then set_closed true i1 else i1).
    assert (Hi2 : inv i2 p /\ below_threshold i2 p /\ config i2 = config i1 /\
                  closing i2 = true /\ active i2 = active i1).
    { unfold i2. destruct (ctx_done ctx).
      - destruct (inv_fields i1 (set_closed true i1) p) as [Hi Ht']; try reflexivity.
        split; [exact (Hi Hinv1)|]. split; [exact (Ht' Hthr1)|].
        conjs; try reflexivity. exact Hcl1.
      - conjs; auto. }
    destruct Hi2 as (Hinv2 & Hthr2 & Hcfg2 & Hcl2 & Ha2).
    unfold Group_Wait.
    destruct (Wait_loop_inv store p _ sched i2 Hinv2 Hthr2 (le_n _))
      as (i3 & HW & Hinv3 & Hthr3 & Hr3 & Hcfg3 & Ha3 & _ & Hcl3 & _).
    rewrite HW.
    exists (set_closed true i3).
    destruct (inv_fields i3 (set_closed true i3) p) as [Hi Ht']; try reflexivity.
    split; [reflexivity|]. split; [exact (Hi Hinv3)|]. split; [exact (Ht' Hthr3)|].
    cbn [g running closing config active set_closed].
    conjs; try congruence.
Qed.



(** *** Runs of the indexer *)

(** An indexer together with the callback of its timer: whether the
    timer has fired and [flushActive] has not run yet. *)
Record world : Type := {
  ix : Indexer;
  callback_pending : bool
}.

(** The items that the indexer holds: those of the buffers of the
    flush tasks in flight, in the order the tasks were started, then
    those of the active buffer. *)
Definition held_items (i : Indexer) : list BulkIndexerItem :=
  (List.concat (map (fun t => bi_items (task_buf t)) (running (g i))) ++
   match active i with Some b => bi_items b | None => [] end)%list.

Section Worlds.

Variable AddRaw : Context -> APMEvent -> error + string.
Variable writeMeta : string -> string -> string.

Local Abbreviation ProcessBatch := (ProcessBatch AddRaw writeMeta).

(** What happens to an indexer: a call of [ProcessBatch], the timer
    reaching its deadline, the callback [flushActive] of the timer, a
    flush task running to its end, a call of [Close]. *)
Inductive op : Type :=
| OpProcessBatch (env : nat -> eventEnv) (ctx : Context) (batch : Batch)
| OpTimerFires
| OpTimerCallback
| OpFlushEnds (store : bool -> bulkIndexer -> error + BulkIndexerResponse) (k : nat)
| OpClose (store : bool -> bulkIndexer -> error + BulkIndexerResponse)
    (sched : list nat) (ctx : Context).

(** One operation; [None] when it cannot take place: the timer is not
    armed, no callback is to come, there is no such flush task, or the
    operation dereferences nil or blocks.  A call of [ProcessBatch]
    that waits for an idle buffer is a call that ends with the events
    it has appended; its other events are a later call. *)
Definition apply_op (o : op) (w : world) : option world :=
  match o with
  | OpProcessBatch env ctx batch =>
      Some {| ix := snd (ProcessBatch env ctx batch (ix w));
              callback_pending := callback_pending w |}
  | OpTimerFires =>
      match timer (ix w) with
      | Some (TimerArmed _) =>
          Some {| ix := timer_fires (ix w); callback_pending := true |}
      | _ => None
      end
  | OpTimerCallback =>
      if callback_pending w then
        match flushActive (ix w) with
        | Some i => Some {| ix := i; callback_pending := false |}
        | None => None
        end
      else None
  | OpFlushEnds store k =>
      match runFlushTask store k (ix w) with
      | Some i => Some {| ix := i; callback_pending := callback_pending w |}
      | None => None
      end
  | OpClose store sched ctx =>
      Some {| ix := snd (Close store sched ctx (ix w));
              callback_pending := callback_pending w |}
  end.

Fixpoint run_ops (ops : list op) (w : world) : option world :=
  match ops with
  | [] => Some w
  | o :: ops' =>
      match apply_op o w with
      | Some w' => run_ops ops' w'
      | None => None
      end
  end.

(** The indexer that [New] returns, no callback to come. *)
Definition started (cfg : Config) : option world :=
  match New cfg with
  | Some i => Some {| ix := i; callback_pending := false |}
  | None => None
  end.

(** The worlds that a run reaches from [New cfg]. *)
Definition reachable (cfg : Config) (w : world) : Prop :=
  exists w0 ops, started cfg = Some w0 /\ run_ops ops w0 = Some w.

Definition world_ok (cfg : Config) (w : world) : Prop :=
  inv (ix w) (callback_pending w) /\
  below_threshold (ix w) (callback_pending w) /\
  config (ix w) = normalize cfg.

Lemma ProcessBatch_inv (env : nat -> eventEnv) (ctx : Context) (batch : Batch)
    (i : Indexer) (p : bool) :
  inv i p -> below_threshold i p ->
  inv (snd (ProcessBatch env ctx batch i)) p /\
  below_threshold (snd (ProcessBatch env ctx batch i)) p /\
  config (snd (ProcessBatch env ctx batch i)) = config i /\
  fst (ProcessBatch env ctx batch i) <> Panicked.
Proof.
  intros Hinv Hthr. unfold modelindexer.ProcessBatch.
  destruct (closing i).
  - cbn. conjs; auto. discriminate.
  - destruct (ProcessBatch_loop AddRaw writeMeta env 0 ctx batch i) as [out i'] eqn:E.
    destruct (ProcessBatch_loop_inv AddRaw writeMeta _ _ _ _ _ _ _ _ Hinv Hthr E)
      as (H1 & H2 & H3 & H4 & _).
    cbn. conjs; assumption.
Qed.

Lemma apply_op_ok (cfg : Config) (o : op) (w w' : world) :
  world_ok cfg w -> apply_op o w = Some w' -> world_ok cfg w'.
Proof.
  intros (Hinv & Hthr & Hcfg). unfold world_ok.
  destruct o as [env ctx batch| | |store k|store sched ctx]; cbn [apply_op].
  - intro H. inversion H; subst w'; clear H. cbn [ix callback_pending].
    destruct (ProcessBatch_inv env ctx batch _ _ Hinv Hthr) as (H1 & H2 & H3 & _).
    conjs; try assumption; congruence.
  - destruct (timer (ix w)) as [[d| |]|] eqn:Ht; try discriminate.
    intro H. inversion H; subst w'; clear H.
    unfold timer_fires. rewrite Ht. cbn [ix callback_pending].
    pose proof (inv_timer _ _ Hinv) as Htimer.
    destruct Hinv as [Hcap Hbuf Hidle Hact Hadded _].
    destruct (active (ix w)) as [b|] eqn:Ha.
    + conjs.
      * constructor; unfold active_slot, active_count in *; cbn; rewrite ?Ha in *;
          try assumption.
        right. split; reflexivity.
      * intros b0 _ Hp. discriminate.
      * exact Hcfg.
    + destruct Htimer as [_ Hn]. exfalso. exact (Hn d Ht).
  - destruct (callback_pending w) eqn:Hp; [|discriminate].
    pose proof (inv_timer _ _ Hinv) as Htimer.
    unfold flushActive, flushActiveLocked.
    destruct (active (ix w)) as [b|] eqn:Ha; [|discriminate].
    intro H. inversion H; subst w'; clear H. cbn [ix callback_pending].
    destruct Htimer as [[Hp' _]|[_ Ht]]; [discriminate|].
    match goal with
    | |- inv ?j _ /\ _ =>
        destruct (inv_handoff (ix w) j true b context_Background Hinv Ha)
          as [Hi Ht']; try reflexivity
    end.
    { intros d. cbn. rewrite Ht. discriminate. }
    conjs; assumption.
  - destruct (runFlushTask store k (ix w)) as [i'|] eqn:E; [|discriminate].
    intro H. inversion H; subst w'; clear H. cbn [ix callback_pending].
    assert (Hnth : exists t, nth_error (running (g (ix w))) k = Some t).
    { unfold runFlushTask in E.
      destruct (nth_error (running (g (ix w))) k) as [t|]; [eauto | discriminate]. }
    destruct Hnth as [t Hnth].
    destruct (runFlushTask_inv store k _ _ t Hinv Hthr Hnth)
      as (i1 & Hrun & Hi & Ht' & Hc & _).
    assert (i1 = i') by congruence. subst i1.
    conjs; try assumption; congruence.
  - intro H. inversion H; subst w'; clear H. cbn [ix callback_pending].
    destruct (Close_inv store sched ctx _ _ Hinv Hthr)
      as (i' & HC & Hi & Ht' & _ & _ & Hc & _).
    rewrite HC. cbn [snd]. conjs; try assumption; congruence.
Qed.

Lemma reachable_ok (cfg : Config) (w : world) :
  reachable cfg w -> world_ok cfg w.
Proof.
  intros (w0 & ops & Hstart & Hrun).
  assert (H0 : world_ok cfg w0).
  { unfold started in Hstart.
    destruct (New cfg) as [i|] eqn:HNew; [|discriminate].
    inversion Hstart; subst w0.
    destruct (inv_New cfg i HNew) as [Hi Ht].
    unfold world_ok. cbn [ix callback_pending]. conjs; try assumption.
    unfold New in HNew.
    destruct (fill_available _ _); [|discriminate].
    inversion HNew. reflexivity. }
  clear Hstart. revert w0 H0 Hrun.
  induction ops as [|o ops IH]; intros w0 H0 Hrun; cbn [run_ops] in Hrun.
  - inversion Hrun. now subst.
  - destruct (apply_op o w0) as [w1|] eqn:E; [|discriminate].
    exact (IH w1 (apply_op_ok cfg o w0 w1 H0 E) Hrun).
Qed.

(** The items of the events of a batch, in order: each with the
    encoding of its event and the reader that [processEvent] took for
    the event at that position; [None] when an encoding fails. *)
Fixpoint encoded_items (env : nat -> eventEnv) (k : nat) (ctx : Context)
    (events : Batch) : option (list BulkIndexerItem) :=
  match events with
  | [] => Some []
  | event :: rest =>
      match AddRaw ctx event, encoded_items env (S k) ctx rest with
      | inr bytes, Some items => Some (item_of (env k) event bytes :: items)
      | _, _ => None
      end
  end.

Lemma processEvent_held (env : eventEnv) (ctx : Context) (event : APMEvent)
    (i i' : Indexer) (p : bool) :
  inv i p ->
  processEvent AddRaw writeMeta env ctx event i = (Returned None, i') ->
  exists bytes,
    AddRaw ctx event = inr bytes /\
    held_items i' = (held_items i ++ [item_of env event bytes])%list.
Proof.
  intros Hinv H.
  destruct (processEvent_nil_inv AddRaw writeMeta _ _ _ _ _ H)
    as (i1 & bytes & b & b' & (Henc & Hacq & Hact1 & Hadd) & Hafter).
  exists bytes. split; [exact Henc|].
  destruct (acquire_inv _ _ _ _ _ Hinv Hacq)
    as (_ & _ & _ & b0 & Hb0 & Hfresh & Hsame).
  assert (b0 = b) by congruence. subst b0.
  destruct (acquire_frame _ _ _ _ Hacq) as (Hg & _).
  assert (H1 : held_items i1 = held_items i).
  { destruct (active i) as [a|] eqn:Ha.
    - rewrite Hsame by discriminate. reflexivity.
    - unfold held_items. rewrite Hg, Hact1, Ha, (Hfresh eq_refl). reflexivity. }
  assert (Hitems : bi_items b' = (bi_items b ++ [item_of env event bytes])%list).
  { cbn in Hadd. inversion Hadd. reflexivity. }
  rewrite <- H1. unfold held_items. rewrite Hact1.
  destruct Hafter as (_ & _ & _ & _ & _ & Hcase).
  destruct (FlushBytes (config i1) <=? bulkIndexer_Len b').
  - destruct Hcase as (t & _ & _ & Hcase). destruct (fst (Timer_Stop t)).
    + destruct Hcase as [Ha Hg']. rewrite Ha, Hg'. cbn [Group_Go running].
      rewrite map_app, concat_app. cbn [map List.concat task_buf].
      rewrite Hitems, !app_nil_r, app_assoc. reflexivity.
    + destruct Hcase as [Ha Hg']. rewrite Ha, Hg', Hitems, app_assoc. reflexivity.
  - destruct Hcase as (_ & Ha & Hg'). rewrite Ha, Hg', Hitems, app_assoc. reflexivity.
Qed.

Lemma ProcessBatch_loop_held (env : nat -> eventEnv) (ctx : Context) (p : bool)
    (batch : Batch) :
  forall (k : nat) (i i' : Indexer) (out : outcome),
    inv i p -> below_threshold i p ->
    ProcessBatch_loop AddRaw writeMeta env k ctx batch i = (out, i') ->
    exists (m : nat) (items : list BulkIndexerItem),
      (m <= List.length batch)%nat /\
      encoded_items env k ctx (firstn m batch) = Some items /\
      List.length items = m /\
      held_items i' = (held_items i ++ items)%list /\
      (out = Returned None -> m = List.length batch) /\
      eventsAdded (counters i') = wrap64 (eventsAdded (counters i) + Z.of_nat m) /\
      eventsFailed (counters i') = eventsFailed (counters i).
Proof.
  induction batch as [|event rest IH]; intros k i i' out Hinv Hthr;
    cbn [ProcessBatch_loop].
  - intro H. inversion H; subst. exists O, []. cbn.
    conjs; try reflexivity; try lia; try (now rewrite app_nil_r).
    rewrite Z.add_0_r. symmetry. apply wrap64_id, (inv_added _ _ Hinv).
  - destruct (processEvent AddRaw writeMeta (env k) ctx event i) as [o i1] eqn:Hpe.
    destruct (processEvent_inv _ _ _ _ _ _ _ _ _ Hinv Hthr Hpe)
      as (Hinv1 & Hthr1 & _ & [[Ho Hcnt]|(Hi & Ho1 & Ho2)]).
    + subst o. intro H.
      destruct (processEvent_held _ _ _ _ _ _ Hinv Hpe) as (bytes & Henc & Hheld).
      destruct (IH _ _ _ _ Hinv1 Hthr1 H)
        as (m & items & Hm & Hitems & Hlen & Hheld' & Hall & Hadd & Hfail).
      exists (S m), (item_of (env k) event bytes :: items).
      cbn [List.length firstn encoded_items]. rewrite Henc, Hitems.
      conjs.
      * lia.
      * reflexivity.
      * now rewrite Hlen.
      * rewrite Hheld', Hheld, <- app_assoc. reflexivity.
      * intro E. now rewrite (Hall E).
      * rewrite Hadd, Hcnt. cbn. unfold atomic_AddInt64.
        rewrite wrap64_add_l. f_equal. lia.
      * rewrite Hfail, Hcnt. reflexivity.
    + subst i1. intro H.
      assert (E : (out, i') = (o, i)) by (destruct o as [[e|]| |]; congruence).
      inversion E; subst. exists O, []. cbn.
      conjs; try reflexivity; try lia; try (now rewrite app_nil_r);
        try (intro E'; congruence).
      rewrite Z.add_0_r. symmetry. apply wrap64_id, (inv_added _ _ Hinv).
Qed.

(** A closed indexer at rest: closing, no active buffer, no flush
    task, the timer not armed and no callback to come. *)
Definition inert (w : world) : Prop :=
  closing (ix w) = true /\
  active (ix w) = None /\
  running (g (ix w)) = [] /\
  (forall d, timer (ix w) <> Some (TimerArmed d)) /\
  callback_pending w = false.

Lemma inert_apply_op (o : op) (w w' : world) :
  inert w -> apply_op o w = Some w' -> w' = w.
Proof.
  destruct w as [i p]. unfold inert. cbn [ix callback_pending].
  intros (Hcl & Ha & Hrn & Ht & Hp). subst p.
  destruct o as [env ctx batch| | |store k|store sched ctx];
    cbn [apply_op ix callback_pending].
  - unfold modelindexer.ProcessBatch. rewrite Hcl. cbn. congruence.
  - destruct (timer i) as [[d| |]|] eqn:E; try discriminate.
    exfalso. exact (Ht d eq_refl).
  - discriminate.
  - unfold runFlushTask. rewrite Hrn. destruct k; discriminate.
  - unfold Close. rewrite Hcl. unfold Group_Wait. rewrite Hrn.
    cbn [List.length Wait_loop]. rewrite Hrn. cbn. congruence.
Qed.

Lemma inert_run_ops (ops : list op) (w w' : world) :
  inert w -> run_ops ops w = Some w' -> w' = w.
Proof.
  intro Hin. induction ops as [|o ops IH]; cbn [run_ops].
  - congruence.
  - destruct (apply_op o w) as [w1|] eqn:E; [|discriminate].
    rewrite (inert_apply_op o w w1 Hin E). exact IH.
Qed.

(** X10: in every state that a run reaches, the idle buffers, the
    buffers of the flush tasks in flight and the active buffer are
    [MaxRequests] buffers together, the capacity of the idle pool;
    and every idle buffer is empty. *)
Theorem buffers_conserved (cfg : Config) (w : world) :
  reachable cfg w ->
  Z.of_nat (List.length (chan_queue (available (ix w))))
  + Z.of_nat (List.length (running (g (ix w))))
  + (match active (ix w) with Some _ => 1 | None => 0 end)
  = MaxRequests (normalize cfg) /\
  chan_cap (available (ix w)) = MaxRequests (normalize cfg) /\
  Forall (fun b => bulkIndexer_Items b = 0 /\ bulkIndexer_Len b = 0)
    (chan_queue (available (ix w))).
Proof.
  intro Hr. destruct (reachable_ok cfg w Hr) as (Hinv & _ & Hcfg).
  destruct Hinv as [Hcap Hbuf Hidle _ _ _].
  unfold active_slot in Hbuf. rewrite <- Hcfg, <- Hcap.
  conjs; [exact Hbuf | reflexivity |].
  revert Hidle. apply Forall_impl. intros b ->. split; reflexivity.
Qed.

(** X11: in every state that a run reaches, an active buffer has its
    timer armed and is below [FlushBytes], or its timer has fired and
    the callback is still to come; without an active buffer the timer
    is not armed and no callback is to come. *)
Theorem active_buffer_has_timer (cfg : Config) (w : world) :
  reachable cfg w ->
  match active (ix w) with
  | Some b =>
      (callback_pending w = false /\
       (exists d, timer (ix w) = Some (TimerArmed d)) /\
       bulkIndexer_Len b < FlushBytes (normalize cfg)) \/
      (callback_pending w = true /\ timer (ix w) = Some TimerFired)
  | None =>
      callback_pending w = false /\ forall d, timer (ix w) <> Some (TimerArmed d)
  end.
Proof.
  intro Hr. destruct (reachable_ok cfg w Hr) as (Hinv & Hthr & Hcfg).
  pose proof (inv_timer _ _ Hinv) as Htimer.
  destruct (active (ix w)) as [b|] eqn:Ha; [|exact Htimer].
  destruct Htimer as [[Hp Hd]|Hf]; [left | right; exact Hf].
  conjs; try assumption. rewrite <- Hcfg. now apply Hthr.
Qed.

(** X12: in every state that a run reaches, no operation dereferences
    nil, and a flush task that returns its buffer finds room in the
    idle pool: [ProcessBatch] and [Close] do not panic, the callback
    of a fired timer finds an active buffer, an active buffer has a
    timer, and while a flush task is in flight the idle pool holds
    fewer buffers than its capacity, so that the send of the task
    does not block. *)
Theorem operations_never_panic (cfg : Config) (w : world) :
  reachable cfg w ->
  (forall env ctx batch, fst (ProcessBatch env ctx batch (ix w)) <> Panicked) /\
  (forall store sched ctx, fst (Close store sched ctx (ix w)) <> Panicked) /\
  (callback_pending w = true -> flushActive (ix w) <> None) /\
  (active (ix w) <> None -> timer (ix w) <> None) /\
  (running (g (ix w)) <> [] ->
   Z.of_nat (List.length (chan_queue (available (ix w)))) < chan_cap (available (ix w)) /\
   forall b, chan_send b (available (ix w)) <> None).
Proof.
  intro Hr. destruct (reachable_ok cfg w Hr) as (Hinv & Hthr & Hcfg).
  pose proof (inv_timer _ _ Hinv) as Htimer.
  conjs.
  - intros env ctx batch. apply (ProcessBatch_inv env ctx batch _ _ Hinv Hthr).
  - intros store sched ctx.
    destruct (Close_inv store sched ctx _ _ Hinv Hthr) as (i' & HC & _).
    rewrite HC. discriminate.
  - intro Hp. unfold flushActive, flushActiveLocked.
    destruct (active (ix w)); [discriminate|].
    destruct Htimer as [Hp' _]. congruence.
  - intros Ha. destruct (active (ix w)); [|congruence].
    destruct Htimer as [[_ [d Ht]]|[_ Ht]]; rewrite Ht; discriminate.
  - intro Hrun.
    assert (Hlt : Z.of_nat (List.length (chan_queue (available (ix w))))
                  < chan_cap (available (ix w))).
    { pose proof (inv_buffers _ _ Hinv) as Hbuf.
      unfold active_slot in Hbuf.
      destruct (running (g (ix w))) as [|t l]; [congruence|].
      cbn [List.length] in Hbuf.
      destruct (active (ix w)); lia. }
    split; [exact Hlt|].
    intro b. unfold chan_send.
    apply Z.ltb_lt in Hlt. rewrite Hlt. discriminate.
Qed.

(** X13: when [Close] is called in a state that a run reaches and no
    callback of the timer is to come, it leaves no active buffer and
    no flush task, all [MaxRequests] buffers idle, and [eventsActive]
    at zero.  When the timer has fired and its callback is still to
    come, [Close] returns with the active buffer left in place. *)
Theorem Close_drains (cfg : Config) (w : world)
    (store : bool -> bulkIndexer -> error + BulkIndexerResponse)
    (sched : list nat) (ctx : Context) :
  reachable cfg w ->
  closing (ix w) = false ->
  let i' := snd (Close store sched ctx (ix w)) in
  running (g i') = [] /\
  (callback_pending w = false ->
   active i' = None /\
   eventsActive (counters i') = 0 /\
   Z.of_nat (List.length (chan_queue (available i'))) = MaxRequests (normalize cfg)) /\
  (callback_pending w = true -> active i' = active (ix w) /\ active i' <> None).
Proof.
  intros Hr Hopen i'.
  destruct (reachable_ok cfg w Hr) as (Hinv & Hthr & Hcfg).
  destruct (Close_inv store sched ctx _ _ Hinv Hthr)
    as (j & HC & Hi & _ & Hrun & _ & Hc & Ha & _).
  assert (i' = j) by (unfold i'; now rewrite HC). subst j.
  rewrite Hopen in Ha.
  conjs.
  - exact Hrun.
  - intro Hp. rewrite Hp in Ha.
    destruct Hi as [Hcap Hbuf _ Hact _ _].
    unfold active_slot, active_count in *. rewrite Ha, Hrun in *.
    cbn in Hbuf, Hact. conjs; [reflexivity | exact Hact |].
    rewrite <- Hcfg, <- Hc, <- Hcap. lia.
  - intro Hp. rewrite Hp in Ha. split; [exact Ha|].
    rewrite Ha. pose proof (inv_timer _ _ Hinv) as Htimer.
    destruct (active (ix w)); [discriminate|].
    destruct Htimer as [Hp' _]. congruence.
Qed.

(** X14: a call of [ProcessBatch] in a state that a run reaches
    appends to what the indexer holds the items of the first [m]
    events of the batch, in the order of the batch, each with the
    encoding of its event, and nothing else; it adds [m] to
    [eventsAdded] and leaves [eventsFailed] alone.  [m] is the number
    of events appended when the call returns or comes to wait for an
    idle buffer: the length of the batch when the call returns nil,
    and the events appended before an error stay appended. *)
Theorem ProcessBatch_appends_prefix (cfg : Config) (w : world)
    (env : nat -> eventEnv) (ctx : Context) (batch : Batch) :
  reachable cfg w ->
  exists (m : nat) (items : list BulkIndexerItem),
    (m <= List.length batch)%nat /\
    encoded_items env 0 ctx (firstn m batch) = Some items /\
    List.length items = m /\
    held_items (snd (ProcessBatch env ctx batch (ix w))) =
      (held_items (ix w) ++ items)%list /\
    (fst (ProcessBatch env ctx batch (ix w)) = Returned None ->
     m = List.length batch /\ closing (ix w) = false) /\
    eventsAdded (counters (snd (ProcessBatch env ctx batch (ix w)))) =
      wrap64 (eventsAdded (counters (ix w)) + Z.of_nat m) /\
    eventsFailed (counters (snd (ProcessBatch env ctx batch (ix w)))) =
      eventsFailed (counters (ix w)).
Proof.
  intro Hr. destruct (reachable_ok cfg w Hr) as (Hinv & Hthr & _).
  unfold modelindexer.ProcessBatch.
  destruct (closing (ix w)).
  - exists O, []. cbn.
    conjs; try reflexivity; try lia; try (now rewrite app_nil_r); try discriminate.
    rewrite Z.add_0_r. symmetry. apply wrap64_id, (inv_added _ _ Hinv).
  - destruct (ProcessBatch_loop AddRaw writeMeta env 0 ctx batch (ix w))
      as [out i'] eqn:E.
    destruct (ProcessBatch_loop_held _ _ _ _ _ _ _ _ Hinv Hthr E)
      as (m & items & Hm & Henc & Hlen & Hheld & Hall & Hadd & Hfail).
    exists m, items. cbn [fst snd]. conjs; auto.
Qed.

(** X15: [Close] is final.  After a call of [Close] in a state that a
    run reaches, not closing and with no callback of the timer to
    come, nothing changes the indexer any more: whatever operations
    follow, the indexer stays as [Close] left it, every later [Close]
    returns what the first call returned, and every [ProcessBatch]
    returns [ErrClosed]. *)
Theorem Close_is_final (cfg : Config) (w w' : world)
    (store : bool -> bulkIndexer -> error + BulkIndexerResponse)
    (sched : list nat) (ctx : Context) (ops : list op) :
  reachable cfg w ->
  closing (ix w) = false ->
  callback_pending w = false ->
  run_ops ops {| ix := snd (Close store sched ctx (ix w));
                 callback_pending := false |} = Some w' ->
  ix w' = snd (Close store sched ctx (ix w)) /\
  callback_pending w' = false /\
  (forall store2 sched2 ctx2,
      Close store2 sched2 ctx2 (ix w') = Close store sched ctx (ix w)) /\
  (forall env ctx2 batch,
      ProcessBatch env ctx2 batch (ix w') = (Returned (Some ErrClosed), ix w')).
Proof.
  intros Hr Hopen Hp Hrun.
  destruct (reachable_ok cfg w Hr) as (Hinv & Hthr & _).
  destruct (Close_inv store sched ctx _ _ Hinv Hthr)
    as (i' & HC & Hi & _ & Hrn & Hcl & _ & Ha & _).
  rewrite HC in *. cbn [snd] in *.
  rewrite Hopen, Hp in Ha.
  assert (Hin : inert {| ix := i'; callback_pending := false |}).
  { unfold inert. cbn [ix callback_pending]. conjs; try assumption; try reflexivity.
    pose proof (inv_timer _ _ Hi) as Ht. rewrite Ha in Ht. apply Ht. }
  pose proof (inert_run_ops ops _ _ Hin Hrun) as Hw. subst w'.
  cbn [ix callback_pending]. conjs; try reflexivity.
  - intros store2 sched2 ctx2. unfold Close at 1. rewrite Hcl.
    unfold Group_Wait. rewrite Hrn. cbn [List.length Wait_loop]. rewrite Hrn.
    reflexivity.
  - intros env ctx2 batch. unfold modelindexer.ProcessBatch. now rewrite Hcl.
Qed.

(** X16: when the timer of a state that a run reaches is armed and
    reaches its deadline, there is an active buffer, and the callback
    hands exactly that buffer off to one new flush task with the
    background context, leaving the active slot empty. *)
Theorem timer_flush_hands_off (cfg : Config) (w : world) (d : Z) :
  reachable cfg w ->
  timer (ix w) = Some (TimerArmed d) ->
  exists b w1 w2,
    active (ix w) = Some b /\
    apply_op OpTimerFires w = Some w1 /\
    apply_op OpTimerCallback w1 = Some w2 /\
    active (ix w2) = None /\
    callback_pending w2 = false /\
    running (g (ix w2)) =
      (running (g (ix w)) ++
       [{| task_ctx := context_Background; task_buf := b |}])%list /\
    counters (ix w2) = counters (ix w).
Proof.
  intros Hr Ht. destruct (reachable_ok cfg w Hr) as (Hinv & _ & _).
  pose proof (inv_timer _ _ Hinv) as Htimer.
  destruct (active (ix w)) as [b|] eqn:Ha.
  - exists b. cbn [apply_op]. rewrite Ht.
    eexists. eexists. split; [reflexivity|]. split; [reflexivity|].
    cbn [callback_pending ix]. unfold flushActive, flushActiveLocked, timer_fires.
    rewrite Ht. cbn [active set_timer]. rewrite Ha.
    split; [reflexivity|]. conjs; reflexivity.
  - destruct Htimer as [_ Hn]. exfalso. exact (Hn d Ht).
Qed.

End Worlds.

(** Runs for the examples: two events that each cross the threshold
    of one byte, the first flush task then running to its end; and
    one event under the default threshold. *)
Definition world_fallback : world :=
  {| ix := indexer_fallback; callback_pending := false |}.

Definition ops_two_events : list op :=
  [OpProcessBatch (fun _ => env_fresh) context_Background [event_log; event_log];
   OpFlushEnds store_failing 0].

Definition world_two_events : world :=
  match started config_small with
  | Some w0 =>
      match run_ops encode_doc meta_line ops_two_events w0 with
      | Some w => w
      | None => world_fallback
      end
  | None => world_fallback
  end.

Definition world_filling : world :=
  match started config_default with
  | Some w0 =>
      match run_ops encode_doc meta_line
              [OpProcessBatch (fun _ => env_fresh) context_Background [event_log]] w0 with
      | Some w => w
      | None => world_fallback
      end
  | None => world_fallback
  end.

Lemma world_two_events_reachable :
  reachable encode_doc meta_line config_small world_two_events.
Proof.
  unfold reachable.
  exists {| ix := indexer_new; callback_pending := false |}, ops_two_events.
  split; vm_compute; reflexivity.
Defined.

Definition indexer_new_default : Indexer :=
  match New config_default with
  | Some i => i
  | None => indexer_fallback
  end.

Lemma world_filling_reachable :
  reachable encode_doc meta_line config_default world_filling.
Proof.
  unfold reachable.
  exists {| ix := indexer_new_default; callback_pending := false |},
    [OpProcessBatch (fun _ => env_fresh) context_Background [event_log]].
  split; vm_compute; reflexivity.
Defined.

Lemma buffers_conserved_witness :
  chan_cap (available (ix world_two_events)) = 2 /\
  List.length (chan_queue (available (ix world_two_events))) = 1%nat /\
  List.length (running (g (ix world_two_events))) = 1%nat.
Proof.
  split; [|split; reflexivity].
  exact (proj1 (proj2 (buffers_conserved encode_doc meta_line config_small
                         world_two_events world_two_events_reachable))).
Defined.

Lemma active_buffer_has_timer_witness :
  exists b, active (ix world_filling) = Some b /\ bulkIndexer_Len b < 5 * 1024 * 1024.
Proof.
  pose proof (active_buffer_has_timer encode_doc meta_line config_default
                world_filling world_filling_reachable) as H.
  destruct (active (ix world_filling)) as [b|] eqn:Ha; [|discriminate].
  exists b. split; [reflexivity|].
  destruct H as [(_ & _ & Hlen)|[Hp _]]; [exact Hlen | discriminate].
Defined.

Lemma operations_never_panic_witness :
  fst (Close store_failing [] ctx_cancelled (ix world_two_events)) <> Panicked /\
  Z.of_nat (List.length (chan_queue (available (ix world_two_events)))) < 2.
Proof.
  pose proof (operations_never_panic encode_doc meta_line config_small
                world_two_events world_two_events_reachable)
    as (_ & HC & _ & _ & Hroom).
  split; [exact (HC store_failing [] ctx_cancelled)|].
  refine (proj1 (Hroom _)). discriminate.
Defined.

Lemma Close_drains_witness :
  eventsActive
    (counters (snd (Close store_failing [] context_Background (ix world_filling)))) = 0.
Proof.
  destruct (Close_drains encode_doc meta_line config_default world_filling
              store_failing [] context_Background world_filling_reachable)
    as (_ & H & _).
  - reflexivity.
  - apply H. reflexivity.
Defined.

Lemma ProcessBatch_appends_prefix_witness :
  exists (m : nat) (items : list BulkIndexerItem),
    (m <= 2)%nat /\
    List.length items = m /\
    held_items
      (snd (ProcessBatch encode_doc meta_line (fun _ => env_fresh)
              context_Background [event_log; event_log] (ix world_two_events))) =
    (held_items (ix world_two_events) ++ items)%list.
Proof.
  destruct (ProcessBatch_appends_prefix encode_doc meta_line config_small
              world_two_events (fun _ => env_fresh) context_Background
              [event_log; event_log] world_two_events_reachable)
    as (m & items & Hm & _ & Hlen & Hheld & _).
  exists m, items. conjs; assumption.
Defined.

Lemma Close_is_final_witness :
  Close store_failing [] ctx_cancelled
    (snd (Close store_failing [] context_Background (ix world_filling))) =
  Close store_failing [] context_Background (ix world_filling).
Proof.
  destruct (Close_is_final encode_doc meta_line config_default world_filling
              {| ix := snd (Close store_failing [] context_Background (ix world_filling));
                 callback_pending := false |}
              store_failing [] context_Background
              [OpProcessBatch (fun _ => env_fresh) context_Background [event_log];
               OpClose store_failing [] ctx_cancelled]
              world_filling_reachable)
    as (_ & _ & HC & _).
  - reflexivity.
  - reflexivity.
  - vm_compute. reflexivity.
  - exact (HC store_failing [] ctx_cancelled).
Defined.

Lemma timer_flush_hands_off_witness :
  exists b w1 w2,
    active (ix world_filling) = Some b /\
    apply_op encode_doc meta_line OpTimerFires world_filling = Some w1 /\
    apply_op encode_doc meta_line OpTimerCallback w1 = Some w2 /\
    active (ix w2) = None.
Proof.
  destruct (timer_flush_hands_off encode_doc meta_line config_default world_filling
              (30 * time_Second) world_filling_reachable)
    as (b & w1 & w2 & Ha & H1 & H2 & Ha2 & _).
  - reflexivity.
  - exists b, w1, w2. conjs; assumption.
Defined.




(** *** The flush of a failed request, and the pooled reader *)

(** X17: when the bulk request of a buffer of [n > 0] items fails,
    [flush] returns the error of the request after one request to the
    store, counts all [n] items as failed and takes them off
    [active] (the sums staying inside [int64]); [added] is
    unchanged. *)
Theorem flush_failed_request_counts_all
    (store : bulkIndexer -> error + BulkIndexerResponse)
    (b : bulkIndexer) (c : Counters) (err : error) :
  0 < bulkIndexer_Items b ->
  store b = inl err ->
  in_int64 (eventsFailed c + bulkIndexer_Items b) ->
  in_int64 (eventsActive c - bulkIndexer_Items b) ->
  flush store b c =
    (Some err,
     {| eventsAdded := eventsAdded c;
        eventsActive := eventsActive c - bulkIndexer_Items b;
        eventsFailed := eventsFailed c + bulkIndexer_Items b |},
     [b]).
Proof.
  intros Hn Hstore Hf Ha. unfold flush. rewrite Hstore.
  destruct (Z.eqb_spec (bulkIndexer_Items b) 0) as [E|_]; [lia|].
  unfold flush_deferred, add_eventsActive, add_eventsFailed, atomic_AddInt64.
  cbn [eventsAdded eventsActive eventsFailed].
  rewrite wrap64_add_r, (wrap64_id _ Hf).
  replace (eventsActive c + - bulkIndexer_Items b)
    with (eventsActive c - bulkIndexer_Items b) by lia.
  rewrite (wrap64_id _ Ha). reflexivity.
Qed.

Lemma flush_failed_request_counts_all_witness :
  flush (store_failing false) buffer_of_ten
    {| eventsAdded := 10; eventsActive := 10; eventsFailed := 0 |} =
  (Some (ErrOther "transport"),
   {| eventsAdded := 10; eventsActive := 0; eventsFailed := 10 |},
   [buffer_of_ten]).
Proof.
  apply (flush_failed_request_counts_all (store_failing false) buffer_of_ten
           {| eventsAdded := 10; eventsActive := 10; eventsFailed := 0 |}
           (ErrOther "transport")).
  - reflexivity.
  - reflexivity.
  - unfold in_int64. cbn. lia.
  - unfold in_int64. cbn. lia.
Defined.

Lemma substring_0_length (s : string) : substring 0 (String.length s) s = s.
Proof. induction s as [|c s IH]; cbn; [reflexivity | now rewrite IH]. Qed.

Lemma substring_split (s : string) :
  forall n : nat,
    (substring 0 n s ++ substring n (String.length s - n) s)%string = s.
Proof.
  induction s as [|c s IH]; intros [|n]; cbn; try reflexivity.
  - now rewrite substring_0_length.
  - now rewrite IH.
Qed.

Lemma substring_0_le (s : string) :
  forall n : nat, (String.length (substring 0 n s) <= n)%nat.
Proof.
  induction s as [|c s IH]; intros [|n]; cbn; try lia.
  specialize (IH n). lia.
Qed.

(** X18: a call of [Read] for [n] bytes returns at most [n] bytes, and
    these followed by what stays in the reader are the bytes the
    reader held.  It reports the end of the stream exactly when the
    reader held no bytes and [n] is not zero; exactly then it puts
    the reader back into the pool, with its buffer and its name
    builder empty; otherwise the name builder is untouched. *)
Theorem pooledReader_Read_spec (n : nat) (r r' : pooledReader) (got : string)
    (eof : bool) (put : option pooledReader) :
  pooledReader_Read n r = (got, eof, r', put) ->
  (got ++ buf r' = buf r)%string /\
  (String.length got <= n)%nat /\
  (eof = true <-> buf r = "" /\ n <> O) /\
  put = (if eof then Some pooledReader_new else None) /\
  (eof = true -> r' = pooledReader_new) /\
  (eof = false -> indexBuilder r' = indexBuilder r).
Proof.
  unfold pooledReader_Read.
  destruct (String.length (buf r) =? 0)%nat eqn:Hlen;
    destruct (n =? 0)%nat eqn:Hn; cbn [andb negb];
    intro H; inversion H; subst; clear H; cbn [buf indexBuilder].
  - apply Nat.eqb_eq in Hlen. apply Nat.eqb_eq in Hn.
    destruct (buf r); [|discriminate]. subst n. cbn.
    conjs;
      first [ reflexivity | lia | solve [intro; discriminate]
            | solve [split; [discriminate | intros [_ Hc]; congruence]] ].
  - apply Nat.eqb_eq in Hlen. apply Nat.eqb_neq in Hn.
    destruct (buf r); [|discriminate].
    destruct n; [congruence|]. cbn.
    conjs;
      first [ reflexivity | lia | solve [intro; discriminate]
            | solve [split; [intros _; split; [reflexivity | discriminate]
                            | reflexivity]] ].
  - apply Nat.eqb_neq in Hlen. apply Nat.eqb_eq in Hn. subst n.
    conjs;
      first [ reflexivity | apply substring_split | apply substring_0_le
            | solve [intro; discriminate]
            | solve [split; [discriminate | intros [_ Hc]; congruence]] ].
  - apply Nat.eqb_neq in Hlen.
    conjs;
      first [ reflexivity | apply substring_split | apply substring_0_le
            | solve [intro; discriminate]
            | solve [split; [discriminate
                            | intros [Hc _]; rewrite Hc in Hlen; cbn in Hlen;
                              congruence]] ].
Qed.

Lemma pooledReader_Read_spec_witness :
  (String.length "{}" <= 4)%nat /\
  pooledReader_Read 4 {| buf := "{}"; indexBuilder := "logs-firehose-default" |} =
    ("{}", false, {| buf := ""; indexBuilder := "logs-firehose-default" |}, None).
Proof.
  split; [|reflexivity].
  exact (proj1 (proj2 (pooledReader_Read_spec 4
                         {| buf := "{}"; indexBuilder := "logs-firehose-default" |}
                         {| buf := ""; indexBuilder := "logs-firehose-default" |}
                         "{}" false None eq_refl))).
Defined.

End modelindexer.
